(** * Bill splitter: reconciliation engine and summary calculator

    A shallow embedding of [src/app.component.ts] and
    [src/models/bill.model.ts], and the properties of the specification
    that are about them.

    Conventions of the embedding.
    - A price, a tax or a tip of the state is the rational ([Q]) that the
      JavaScript [number] stands for.  The summary calculator is given
      twice: [billSummary] computes on the rationals, with the division by
      [assignedTo.length] written out where it leaves the finite numbers
      (type [number] below); [billSummaryIn] is the same code with the
      arithmetic as a parameter, of which [binary64] is the arithmetic of
      JavaScript, with its rounding, infinities and NaN.
    - Strings are [string]; [toLowerCase], [toUpperCase] and [trim] are the
      JavaScript built-ins on ASCII strings, and properties that depend on
      what they do to other characters are stated for ASCII strings.
    - [Map<string, Person>] is a [gmap string Person]; the insertion order
      of a JavaScript [Map] is not modelled (no property below depends on
      the order of iteration).  The summary, a plain object filled by
      [summary[name] = ...], is the map of its own properties
      ([ownProperties]).
    - Every update in the component builds fresh objects (spread syntax),
      so an object reference held by a person is modelled by the value of
      the record at the time the reference was taken.
    - [handleChatMessage] is asynchronous; the call to the interpretation
      service is a parameter, and the handler is split at the [await] into
      what runs before the call ([chatBegin]) and what runs once it has
      settled ([chatSettle]).

    The file has four parts: the program, the vocabulary in which the
    properties are stated, the properties of the specification with their
    proofs, and further properties of the code. *)

From Stdlib Require Import Ascii QArith Lqa.
From Stdlib Require Floats.
Import Floats.PrimFloat Floats.SpecFloat Floats.FloatOps.
From stdpp Require Import gmap strings list fin_maps.

Open Scope string_scope.
Open Scope list_scope.

(** * The program *)

(** ** JavaScript string built-ins (ASCII range) *)

Module JSString.

Definition is_upper (c : ascii) : bool :=
  let n := nat_of_ascii c in (65 <=? n)%nat && (n <=? 90)%nat.

Definition is_lower (c : ascii) : bool :=
  let n := nat_of_ascii c in (97 <=? n)%nat && (n <=? 122)%nat.

Definition lower_ascii (c : ascii) : ascii :=
  if is_upper c then ascii_of_nat (nat_of_ascii c + 32) else c.

Definition upper_ascii (c : ascii) : ascii :=
  if is_lower c then ascii_of_nat (nat_of_ascii c - 32) else c.

Fixpoint toLowerCase (s : string) : string :=
  match s with
  | EmptyString => EmptyString
  | String c r => String (lower_ascii c) (toLowerCase r)
  end.

(** White space recognised by [trim]: TAB, LF, VT, FF, CR and SPACE. *)
Definition is_space (c : ascii) : bool :=
  let n := nat_of_ascii c in ((9 <=? n)%nat && (n <=? 13)%nat) || (n =? 32)%nat.

Fixpoint trimStart (s : string) : string :=
  match s with
  | EmptyString => EmptyString
  | String c r => if is_space c then trimStart r else s
  end.

Fixpoint trimEnd (s : string) : string :=
  match s with
  | EmptyString => EmptyString
  | String c r =>
      match trimEnd r with
      | EmptyString => if is_space c then EmptyString else String c EmptyString
      | r' => String c r'
      end
  end.

Definition trim (s : string) : string := trimEnd (trimStart s).

(** Truthiness of a string: [!s] holds exactly for the empty string. *)
Definition is_empty (s : string) : bool :=
  match s with EmptyString => true | _ => false end.

End JSString.

Import JSString.

(** ** Data model ([bill.model.ts]) *)

Record ReceiptItem := mkItem {
  id : nat;
  name : string;
  price : Q;
  assignedTo : list string
}.

Record ParsedReceipt := mkParsed {
  parsed_items : list (string * Q);
  parsed_tax : Q;
  parsed_tip : Q
}.

Record Assignment := mkAssignment {
  personName : string;
  itemName : string
}.

Record Person := mkPerson {
  person_name : string;
  items : list ReceiptItem
}.

(** The money that leaves a division by [assignedTo.length]: a finite
    value, or [NonFinite] for what JavaScript returns when the divisor is
    zero ([Infinity], [-Infinity] or [NaN]).  Non-finite values absorb every
    finite operand of [+], [*] and [/] that the component applies to them. *)
Inductive number :=
  | Finite (q : Q)
  | NonFinite.

Record Share := mkShare {
  subtotal_of : number;
  tax_of : number;
  tip_of : number;
  total_of : number
}.

Inductive Role := user | model | system.

Record ChatMessage := mkMsg {
  role : Role;
  text : string
}.

Inductive AppState := welcome | parsing | splitting | error.

(** Values a [catch] clause can receive: an [Error] object with its
    message, or anything else. *)
Inductive Thrown :=
  | ErrorObject (message : string)
  | OtherValue.

(** ** Component state (the signals of [AppComponent]) *)

Record State := mkState {
  appState : AppState;
  errorMessage : option string;
  receiptItems : list ReceiptItem;
  tax : Q;
  tip : Q;
  people : gmap string Person;
  chatHistory : list ChatMessage;
  userMessage : string;
  isProcessingChat : bool
}.

Definition set_receiptItems (v : list ReceiptItem) (st : State) : State :=
  mkState (appState st) (errorMessage st) v (tax st) (tip st) (people st)
          (chatHistory st) (userMessage st) (isProcessingChat st).

Definition set_people (v : gmap string Person) (st : State) : State :=
  mkState (appState st) (errorMessage st) (receiptItems st) (tax st) (tip st) v
          (chatHistory st) (userMessage st) (isProcessingChat st).

Definition set_chatHistory (v : list ChatMessage) (st : State) : State :=
  mkState (appState st) (errorMessage st) (receiptItems st) (tax st) (tip st)
          (people st) v (userMessage st) (isProcessingChat st).

Definition set_userMessage (v : string) (st : State) : State :=
  mkState (appState st) (errorMessage st) (receiptItems st) (tax st) (tip st)
          (people st) (chatHistory st) v (isProcessingChat st).

Definition set_isProcessingChat (v : bool) (st : State) : State :=
  mkState (appState st) (errorMessage st) (receiptItems st) (tax st) (tip st)
          (people st) (chatHistory st) (userMessage st) v.

(** [chatHistory.update(history => [...history, m])] *)
Definition push_chat (m : ChatMessage) (st : State) : State :=
  set_chatHistory (chatHistory st ++ [m]) st.

(** The state a fresh component starts in, and the one [resetApp] restores. *)
Definition initialState : State :=
  mkState welcome None [] 0 0 ∅ [] EmptyString false.

(** ** [capitalize] *)

Definition capitalize (s : string) : string :=
  match s with
  | EmptyString => EmptyString
  | String c r => String (upper_ascii c) r
  end.

(** ** Reconciliation: applying a batch ([handleChatMessage], else branch) *)

(** The predicate of [assignments.filter] for one item. *)
Definition matchesItem (item : ReceiptItem) (a : Assignment) : bool :=
  (toLowerCase (itemName a) =? toLowerCase (name item))%string
  && (length (assignedTo item) =? 0)%nat.

(** [newReceiptItems.map(item => ...)] *)
Definition assignOne (assignments : list Assignment) (item : ReceiptItem) : ReceiptItem :=
  let assignmentsForItem := List.filter (matchesItem item) assignments in
  if (0 <? length assignmentsForItem)%nat then
    let newAssignees := map (fun a => capitalize (personName a)) assignmentsForItem in
    mkItem (id item) (name item) (price item) (assignedTo item ++ newAssignees)
  else item.

Definition applyAssignments (assignments : list Assignment)
    (items : list ReceiptItem) : list ReceiptItem :=
  map (assignOne assignments) items.

(** [assignments.forEach(assignment => ...)] over [peopleToUpdate]: one step. *)
Definition assignPerson (newReceiptItems : list ReceiptItem)
    (peopleToUpdate : gmap string Person) (assignment : Assignment)
    : gmap string Person :=
  match List.find (fun i => (toLowerCase (name i) =? toLowerCase (itemName assignment))%string)
                  newReceiptItems with
  | Some updatedItem =>
      let personName := capitalize (personName assignment) in
      let person := default (mkPerson personName []) (peopleToUpdate !! personName) in
      if negb (existsb (fun i => (id i =? id updatedItem)%nat) (items person)) then
        <[personName := mkPerson (person_name person) (items person ++ [updatedItem])]>
          peopleToUpdate
      else peopleToUpdate
  | None => peopleToUpdate
  end.

Definition assignPeople (assignments : list Assignment)
    (newReceiptItems : list ReceiptItem) (newPeople : gmap string Person)
    : gmap string Person :=
  foldl (assignPerson newReceiptItems) newPeople assignments.

(** [newReceiptItems.find(newItem => newItem.id === i.id)!].  The source
    stores [undefined] when no item has the identifier; the embedding keeps
    the old record there.  Lemma [syncItem_found] shows that the case does
    not arise while every identifier a person holds is on the receipt. *)
Definition syncItem (newReceiptItems : list ReceiptItem) (i : ReceiptItem) : ReceiptItem :=
  default i (List.find (fun newItem => (id newItem =? id i)%nat) newReceiptItems).

(** [for (const [name, person] of peopleToUpdate.entries()) ...]: every
    entry is replaced, under its own key, by the person with re-read items. *)
Definition syncPeople (newReceiptItems : list ReceiptItem)
    (peopleToUpdate : gmap string Person) : gmap string Person :=
  (fun person => mkPerson (person_name person)
                          (map (syncItem newReceiptItems) (items person)))
    <$> peopleToUpdate.

Definition newline : string := String (ascii_of_nat 10) EmptyString.

Definition responseText (assignments : list Assignment) : string :=
  "Assigned:" +:+
  String.concat EmptyString
    (map (fun a => newline +:+ "- " +:+ itemName a +:+ " to " +:+ capitalize (personName a))
         assignments).

Definition nothingAssigned : string :=
  "I couldn't find any items to assign from your message. Try again?".

(** The else branch of the [try] block, lines 135-173. *)
Definition reconcile (assignments : list Assignment) (st : State) : State :=
  let newReceiptItems := applyAssignments assignments (receiptItems st) in
  let peopleToUpdate :=
    syncPeople newReceiptItems
      (assignPeople assignments newReceiptItems (people st)) in
  push_chat (mkMsg model (responseText assignments))
    (set_people peopleToUpdate (set_receiptItems newReceiptItems st)).

(** ** [handleChatMessage] *)

(** [geminiService.assignItems]: the external interpretation call.  It
    either resolves with a batch or rejects with a thrown value. *)
Definition Interpreter : Type :=
  string -> list ReceiptItem -> list string -> Thrown + list Assignment.

Definition unassignedItems (st : State) : list ReceiptItem :=
  List.filter (fun item => (length (assignedTo item) =? 0)%nat) (receiptItems st).

Definition thrown_message (e : Thrown) : string :=
  match e with
  | ErrorObject m => m
  | OtherValue => "An unknown error occurred."
  end.

(** Lines 117-124: the guard and what happens before the call. [None] is
    the early [return]. *)
Definition chatBegin (st : State) : option (string * State) :=
  let message := trim (userMessage st) in
  if is_empty message || isProcessingChat st then None
  else Some (message,
             set_userMessage EmptyString
               (push_chat (mkMsg user message) (set_isProcessingChat true st))).

(** Lines 126-181: what happens once the call has settled ([try], [catch]
    and [finally]). *)
Definition chatSettle (response : Thrown + list Assignment) (st : State) : State :=
  let st' :=
    match response with
    | inr assignments =>
        if (length assignments =? 0)%nat
        then push_chat (mkMsg model nothingAssigned) st
        else reconcile assignments st
    | inl err => push_chat (mkMsg model (thrown_message err)) st
    end in
  set_isProcessingChat false st'.

Definition handleChatMessage (assignItems : Interpreter) (st : State) : State :=
  match chatBegin st with
  | None => st
  | Some (message, st1) =>
      let peopleNames := (map_to_list (people st1)).*1 in
      chatSettle (assignItems message (unassignedItems st1) peopleNames) st1
  end.

(** ** [unassignItem] *)

Definition unassignItem (itemToUnassign : ReceiptItem) (personName : string)
    (st : State) : State :=
  let items' :=
    map (fun item =>
           if (id item =? id itemToUnassign)%nat then
             mkItem (id item) (name item) (price item)
                    (List.filter (fun p => negb (p =? personName)%string) (assignedTo item))
           else item)
        (receiptItems st) in
  let newPeople :=
    match people st !! personName with
    | Some person =>
        let updatedItems :=
          List.filter (fun i => negb (id i =? id itemToUnassign)%nat) (items person) in
        if (length updatedItems =? 0)%nat then delete personName (people st)
        else <[personName := mkPerson (person_name person) updatedItems]> (people st)
    | None => people st
    end in
  set_people newPeople (set_receiptItems items' st).

(** ** [onFileSelected] (the part that installs a parsed receipt) and [resetApp] *)

Definition dquote : string := String (ascii_of_nat 34) EmptyString.

Definition receiptParsedText : string :=
  "Receipt parsed! Tell me who had what. For example, " +:+ dquote +:+
  "David had the burger" +:+ dquote +:+ " or " +:+ dquote +:+
  "Jane and John shared the fries" +:+ dquote +:+ ".".

Definition receiptParsed (parsedData : ParsedReceipt) (st : State) : State :=
  mkState splitting None
    (imap (fun index item => mkItem index item.1 item.2 []) (parsed_items parsedData))
    (parsed_tax parsedData) (parsed_tip parsedData)
    (people st)
    [mkMsg system receiptParsedText]
    (userMessage st) (isProcessingChat st).

Definition resetApp (st : State) : State :=
  mkState welcome None [] 0 0 ∅ [] EmptyString (isProcessingChat st).

(** ** Summary calculator ([subtotal] and [billSummary]) *)

Definition subtotal (st : State) : Q :=
  fold_left (fun acc item => acc + price item)%Q (receiptItems st) 0%Q.

(** [price / assignedTo.length] *)
Definition divLength (p : Q) (n : nat) : number :=
  match n with
  | O => NonFinite
  | S _ => Finite (p / inject_Z (Z.of_nat n))
  end.

Definition num_add (a b : number) : number :=
  match a, b with
  | Finite x, Finite y => Finite (x + y)
  | _, _ => NonFinite
  end.

(** [a / d] for a finite divisor [d]. *)
Definition num_divQ (a : number) (d : Q) : number :=
  match a with
  | Finite x => if Qeq_bool d 0 then NonFinite else Finite (x / d)
  | NonFinite => NonFinite
  end.

(** [c * a] for a finite factor [c]. *)
Definition num_scale (c : Q) (a : number) : number :=
  match a with
  | Finite x => Finite (c * x)
  | NonFinite => NonFinite
  end.

Definition personShare (totalSubtotal overallTax overallTip : Q) (person : Person) : Share :=
  let personSubtotal :=
    fold_left (fun acc item => num_add acc (divLength (price item) (length (assignedTo item))))
              (items person) (Finite 0) in
  let proportion := num_divQ personSubtotal totalSubtotal in
  let personTax := num_scale overallTax proportion in
  let personTip := num_scale overallTip proportion in
  let personTotal := num_add (num_add personSubtotal personTax) personTip in
  mkShare personSubtotal personTax personTip personTotal.

Definition billSummary (st : State) : gmap string Share :=
  let totalSubtotal := subtotal st in
  let overallTax := tax st in
  let overallTip := tip st in
  if Qeq_bool totalSubtotal 0 then ∅
  else personShare totalSubtotal overallTax overallTip <$> people st.

(** ** The summary calculator in the arithmetic of the program *)

(** The calculator is written with [+], [*], [/] and [=== 0] on numbers.
    The arithmetic that gives these their meaning is a parameter: for the
    program it is binary64 ([binary64] below); [exact] is arithmetic on the
    rationals.  [valueOf] reads a number as the rational it stands for, or
    [NonFinite] for an infinity or NaN. *)
Class Arithmetic (N : Type) := {
  ofRational : Q -> N;
  ofLength : nat -> N;
  addN : N -> N -> N;
  mulN : N -> N -> N;
  divN : N -> N -> N;
  isZeroN : N -> bool;
  valueOf : N -> number
}.

(** An entry of [BillSummary]. *)
Record ShareIn (N : Type) := mkShareIn {
  share_subtotal : N;
  share_tax : N;
  share_tip : N;
  share_total : N
}.

Arguments mkShareIn {N} _ _ _ _.
Arguments share_subtotal {N} _.
Arguments share_tax {N} _.
Arguments share_tip {N} _.
Arguments share_total {N} _.

(** The own properties of a plain object that was filled by assignments
    [object[key] = value]: every key but ["__proto__"], whose assignment
    sets the prototype and creates no property. *)
Definition ownProperties {V : Type} (object : gmap string V) : gmap string V :=
  filter (fun entry => entry.1 <> "__proto__") object.

Section Calculator.
Context {N : Type} {A : Arithmetic N}.

(** [subtotal] *)
Definition subtotalIn (st : State) : N :=
  fold_left (fun acc item => addN acc (ofRational (price item)))
            (receiptItems st) (ofRational 0).

(** [person.items.reduce(...)] *)
Definition personSubtotalIn (person : Person) : N :=
  fold_left (fun acc item =>
               addN acc (divN (ofRational (price item))
                              (ofLength (length (assignedTo item)))))
            (items person) (ofRational 0).

Definition personShareIn (totalSubtotal overallTax overallTip : N) (person : Person)
    : ShareIn N :=
  let personSubtotal := personSubtotalIn person in
  let proportion := divN personSubtotal totalSubtotal in
  let personTax := mulN overallTax proportion in
  let personTip := mulN overallTip proportion in
  let personTotal := addN (addN personSubtotal personTax) personTip in
  mkShareIn personSubtotal personTax personTip personTotal.

(** [billSummary] *)
Definition billSummaryIn (st : State) : gmap string (ShareIn N) :=
  let totalSubtotal := subtotalIn st in
  let overallTax := ofRational (tax st) in
  let overallTip := ofRational (tip st) in
  if isZeroN totalSubtotal then ∅
  else ownProperties (personShareIn totalSubtotal overallTax overallTip <$> people st).

(** [summaryKeys]: [Object.keys(this.billSummary())], as a set of names. *)
Definition summaryKeysIn (st : State) : gset string := dom (billSummaryIn st).

End Calculator.

(** *** Exact arithmetic *)

Definition num_mul (a b : number) : number :=
  match a, b with
  | Finite x, Finite y => Finite (x * y)
  | _, _ => NonFinite
  end.

Definition num_div (a b : number) : number :=
  match a, b with
  | Finite x, Finite y => if Qeq_bool y 0 then NonFinite else Finite (x / y)
  | _, _ => NonFinite
  end.

Definition num_isZero (a : number) : bool :=
  match a with
  | Finite x => Qeq_bool x 0
  | NonFinite => false
  end.

#[export] Instance exact : Arithmetic number :=
  {| ofRational := Finite;
     ofLength := fun n => Finite (inject_Z (Z.of_nat n));
     addN := num_add;
     mulN := num_mul;
     divN := num_div;
     isZeroN := num_isZero;
     valueOf := fun a => a |}.

(** *** Binary64, the arithmetic of JavaScript numbers *)

(** The double nearest to an integer. *)
Definition floatOfZ (z : Z) : float :=
  SF2Prim (binary_normalize prec emax z 0 false).

(** The double a rational stands for: the correctly rounded quotient of
    numerator and denominator (the rational itself when it is a double). *)
Definition floatOfQ (q : Q) : float :=
  PrimFloat.div (floatOfZ (Qnum q)) (floatOfZ (Zpos (Qden q))).

(** The rational a double is, sign of zero dropped. *)
Definition floatValue (x : float) : number :=
  match Prim2SF x with
  | S754_zero _ => Finite 0
  | S754_finite s m e =>
      Finite ((if s then (-1) else 1) * inject_Z (Zpos m) * (2 ^ e))%Q
  | S754_infinity _ => NonFinite
  | S754_nan => NonFinite
  end.

#[export] Instance binary64 : Arithmetic float :=
  {| ofRational := floatOfQ;
     ofLength := fun n => floatOfZ (Z.of_nat n);
     addN := PrimFloat.add;
     mulN := PrimFloat.mul;
     divN := PrimFloat.div;
     isZeroN := fun x => PrimFloat.eqb x (floatOfZ 0);
     valueOf := floatValue |}.

(** ** [handleError], [fileToBase64] and [onFileSelected] *)

Definition set_appState (v : AppState) (st : State) : State :=
  mkState v (errorMessage st) (receiptItems st) (tax st) (tip st) (people st)
          (chatHistory st) (userMessage st) (isProcessingChat st).

Definition set_errorMessage (v : option string) (st : State) : State :=
  mkState (appState st) v (receiptItems st) (tax st) (tip st) (people st)
          (chatHistory st) (userMessage st) (isProcessingChat st).

Definition handleError (message : string) (st : State) : State :=
  set_appState error (set_errorMessage (Some message) st).

(** [s.indexOf(c)]: the position of the first [c], or [-1]. *)
Fixpoint indexOf (c : ascii) (s : string) : Z :=
  match s with
  | EmptyString => (-1)%Z
  | String d r =>
      if Ascii.eqb d c then 0%Z
      else let n := indexOf c r in if (n =? -1)%Z then (-1)%Z else (n + 1)%Z
  end.

Fixpoint dropChars (n : nat) (s : string) : string :=
  match n, s with
  | O, _ => s
  | S n', EmptyString => EmptyString
  | S n', String _ r => dropChars n' r
  end.

(** [s.substring(start)]: a negative start counts as 0, a start past the
    end gives the empty string. *)
Definition substringFrom (start : Z) (s : string) : string :=
  dropChars (Z.to_nat (Z.max 0 start)) s.

Definition comma : ascii := ascii_of_nat 44.

(** The [onload] handler of [fileToBase64]: what is kept of the data URL. *)
Definition stripDataUrlPrefix (result : string) : string :=
  substringFrom (indexOf comma result + 1) result.

(** A selected file: its MIME type, and what the [FileReader] delivers for
    it ([None] when it fires [onerror]). *)
Record SelectedFile := mkFile {
  file_type : string;
  file_dataUrl : option string
}.

(** [fileToBase64]: resolves with the stripped data URL, or rejects with
    the reader's error event, which is not an [Error] object. *)
Definition fileToBase64 (file : SelectedFile) : Thrown + string :=
  match file_dataUrl file with
  | Some result => inr (stripDataUrlPrefix result)
  | None => inl OtherValue
  end.

(** [geminiService.parseReceipt]: the external extraction call. *)
Definition ReceiptParser : Type := string -> Thrown + ParsedReceipt.

(** [onFileSelected], with [input.files] as a list (empty when there is
    none) and the two awaited calls settled. *)
Definition onFileSelected (parseReceipt : ReceiptParser) (files : list SelectedFile)
    (st : State) : State :=
  match files with
  | [] => st
  | file :: _ =>
      if negb (String.prefix "image/" (file_type file))
      then handleError "Please upload an image file." st
      else
        let st1 := set_errorMessage None (set_appState parsing st) in
        match fileToBase64 file with
        | inl err => handleError (thrown_message err) st1
        | inr base64String =>
            match parseReceipt base64String with
            | inl err => handleError (thrown_message err) st1
            | inr parsedData => receiptParsed parsedData st1
            end
        end
  end.

(** ** The service ([GeminiService]) around the hosted model *)

Definition failedToParse : string :=
  "Failed to parse receipt. Please try again with a clearer image.".

Definition troubleUnderstanding : string :=
  "I had trouble understanding that. Could you please rephrase?".

(** What [JSON.parse(text) as T] delivers.  The cast is not checked: the
    parse throws, or returns a value of the shape of [T], or returns some
    other value. *)
Inductive Parse (T : Type) : Type :=
  | parseThrows (e : Thrown)
  | parsesTo (value : T)
  | parsesToOther.

Arguments parseThrows {T} e.
Arguments parsesTo {T} value.
Arguments parsesToOther {T}.

(** [parseReceipt]: [generateContent] answers with a text or throws.
    Whatever is thrown inside the [try] is replaced by one [Error].  The
    result is [None] when the promise resolves with a value that is no
    [ParsedReceipt]: what the caller makes of such a value is not part of
    this model. *)
Definition parseReceiptService
    (generateContent : string -> Thrown + string)
    (jsonParse : string -> Parse ParsedReceipt)
    : string -> option (Thrown + ParsedReceipt) :=
  fun base64ImageData =>
    match generateContent base64ImageData with
    | inl _ => Some (inl (ErrorObject failedToParse))
    | inr text =>
        match jsonParse (trim text) with
        | parseThrows _ => Some (inl (ErrorObject failedToParse))
        | parsesTo parsed => Some (inr parsed)
        | parsesToOther => None
        end
    end.

(** [assignItems]: the prompt is built from the message, the names and
    prices of the unassigned items and the people's names, so the model's
    answer is a function of these; [jsonParse] is [JSON.parse] followed by
    the read of [.assignments] ([None] when the field is missing or
    falsy). *)
Definition assignItemsService
    (generateContent : string -> list (string * Q) -> list string -> Thrown + string)
    (jsonParse : string -> Thrown + option (list Assignment)) : Interpreter :=
  fun chatMessage unassigned peopleNames =>
    match generateContent chatMessage
            (map (fun i => (name i, price i)) unassigned) peopleNames with
    | inl _ => inl (ErrorObject troubleUnderstanding)
    | inr text =>
        match jsonParse (trim text) with
        | inl _ => inl (ErrorObject troubleUnderstanding)
        | inr result => inr (default [] result)
        end
    end.

(** * Vocabulary of the properties *)

(** ** The chat handler, step by step *)

(** The state in which the interpretation call is pending. *)
Definition chatStarted (st : State) : State :=
  set_userMessage EmptyString
    (push_chat (mkMsg user (trim (userMessage st))) (set_isProcessingChat true st)).

(** The answer [handleChatMessage] receives from the interpreter, if it
    gets as far as asking. *)
Definition chatResponse (assignItems : Interpreter) (st : State)
    : option (Thrown + list Assignment) :=
  match chatBegin st with
  | None => None
  | Some (message, st1) =>
      Some (assignItems message (unassignedItems st1) (map_to_list (people st1)).*1)
  end.

(** ** Items *)

(** What an operation is expected to leave alone in an item. *)
Definition frame (item : ReceiptItem) : nat * string * Q :=
  (id item, name item, price item).

(** An assignment targets an item when it names the item up to letter case
    and the item has no assignee as the batch starts. *)
Definition targets (item : ReceiptItem) (a : Assignment) : Prop :=
  toLowerCase (itemName a) = toLowerCase (name item) /\ assignedTo item = [].

#[local] Instance targets_dec item a : Decision (targets item a).
Proof. unfold targets. apply _. Defined.

#[local] Instance Q_eq_dec : EqDecision Q.
Proof. solve_decision. Defined.

#[local] Instance ReceiptItem_eq_dec : EqDecision ReceiptItem.
Proof. solve_decision. Defined.

#[local] Instance Qle_dec (x y : Q) : Decision (x <= y)%Q.
Proof.
  destruct (Qlt_le_dec y x) as [H|H]; [right|left; exact H].
  by apply Qlt_not_le.
Defined.

(** ** Amounts *)

(** Equality of computed amounts: rational equality on finite values. *)
Definition num_eq (a b : number) : Prop :=
  match a, b with
  | Finite x, Finite y => (x == y)%Q
  | NonFinite, NonFinite => True
  | _, _ => False
  end.

(** The share of one item for each of its assignees. *)
Definition itemShare (item : ReceiptItem) : number :=
  divLength (price item) (length (assignedTo item)).

(** The sum, over a list of items, of the share of each. *)
Definition sumShares (l : list ReceiptItem) : number :=
  foldr (fun item acc => num_add (itemShare item) acc) (Finite 0) l.

(** A finite sum of rationals. *)
Definition sumQ {A : Type} (f : A -> Q) (l : list A) : Q :=
  foldr (fun x acc => (f x + acc)%Q) 0%Q l.

(** The share of an item that has an assignee, as a rational. *)
Definition shareQ (item : ReceiptItem) : Q :=
  (price item / inject_Z (Z.of_nat (length (assignedTo item))))%Q.

(** What the shares of one item add up to: its price, or nothing when
    nobody is assigned. *)
Definition assignedPrice (item : ReceiptItem) : Q :=
  if decide (assignedTo item = []) then 0%Q else price item.

(** The sum, over the people of the summary, of their subtotals. *)
Definition peopleSubtotals (st : State) : number :=
  map_fold (fun _ sh acc => num_add (subtotal_of sh) acc) (Finite 0) (billSummary st).

(** ** Item records held by people *)

(** A property of every item record held by every person of the map. *)
Definition holdings (P : string -> ReceiptItem -> Prop) (st : State) : Prop :=
  map_Forall (fun n person => Forall (P n) (items person)) (people st).

(** The invariant of the data model: what a person holds is a record of the
    current receipt, and that record names the person as an assignee. *)
Definition inSync (st : State) : Prop :=
  holdings (fun n item => item ∈ receiptItems st /\ n ∈ assignedTo item) st.

(** Every identifier held by a person is the identifier of a receipt item. *)
Definition idsOnReceipt (st : State) : Prop :=
  holdings (fun _ item => id item ∈ id <$> receiptItems st) st.

(** Items and people describe the same assignment: identifiers are
    distinct; no item names an assignee twice, and every assignee is a
    person of the map; every person holds, once each, exactly the items of
    the current receipt that name the person. *)
Definition consistent (st : State) : Prop :=
  NoDup (id <$> receiptItems st)
  /\ Forall (fun item =>
               NoDup (assignedTo item)
               /\ Forall (fun n => is_Some (people st !! n)) (assignedTo item))
            (receiptItems st)
  /\ map_Forall (fun n person =>
                   NoDup (items person)
                   /\ Forall (fun item => item ∈ receiptItems st /\ n ∈ assignedTo item)
                             (items person)
                   /\ Forall (fun item => n ∈ assignedTo item -> item ∈ items person)
                             (receiptItems st))
                (people st).

Definition everyItemAssigned (st : State) : Prop :=
  Forall (fun item => assignedTo item <> []) (receiptItems st).

(** The people's subtotals add up to at most the subtotal of the receipt,
    and to exactly the subtotal when, and only when, every item has an
    assignee. *)
Definition sharesWithinSubtotal (st : State) : Prop :=
  exists q, peopleSubtotals st = Finite q
    /\ (q <= subtotal st)%Q
    /\ ((q == subtotal st)%Q <-> everyItemAssigned st).

(** ** Sessions *)

(** The states of a session: a receipt is installed in a fresh component;
    afterwards the user types, sends chat messages and unassigns. *)
Inductive inSession : State -> Prop :=
  | session_open parsedData :
      inSession (receiptParsed parsedData initialState)
  | session_type txt st :
      inSession st -> inSession (set_userMessage txt st)
  | session_chat assignItems st :
      inSession st -> inSession (handleChatMessage assignItems st)
  | session_unassign item personName st :
      inSession st -> inSession (unassignItem item personName st).

(** ** Sessions worked out, starting with the example of the specification *)

Module Example.

Definition receipt : ParsedReceipt :=
  mkParsed [("Burger", 10%Q); ("Fries", 4%Q)] 1 2.

(** An interpreter that answers every message with the given batch. *)
Definition answering (batch : list Assignment) : Interpreter :=
  fun _ _ _ => inr batch.

(** An interpreter whose call rejects, the way [assignItems] of the
    service does. *)
Definition failing : Interpreter :=
  fun _ _ _ =>
    inl (ErrorObject "I had trouble understanding that. Could you please rephrase?").

(** The user types [txt] and sends it; the interpreter answers [batch]. *)
Definition chat (txt : string) (batch : list Assignment) (st : State) : State :=
  handleChatMessage (answering batch) (set_userMessage txt st).

Definition burger (assignees : list string) : ReceiptItem :=
  mkItem 0 "Burger" 10 assignees.

Definition fries (assignees : list string) : ReceiptItem :=
  mkItem 1 "Fries" 4 assignees.

Definition parsed : State := receiptParsed receipt initialState.

(** David had the burger, Jane and John shared the fries. *)
Definition assigned : State :=
  chat "David had the burger, Jane and John shared the fries"
       [mkAssignment "David" "Burger"; mkAssignment "Jane" "Fries";
        mkAssignment "John" "Fries"]
       parsed.

(** Jane is then taken off the fries. *)
Definition janeRemoved : State :=
  unassignItem (fries ["Jane"; "John"]) "Jane" assigned.

(** The interpreter names David twice for the burger. *)
Definition davidTwice : State :=
  chat "David had the burger"
       [mkAssignment "David" "Burger"; mkAssignment "David" "Burger"]
       parsed.

(** The burger is David's; a later answer names it again, for Jane. *)
Definition burgerAgain : State :=
  chat "Jane had the burger"
       [mkAssignment "Jane" "Burger"]
       (chat "David had the burger" [mkAssignment "David" "Burger"] parsed).

(** A receipt with a complimentary item; only the burger gets assigned. *)
Definition freeWater : State :=
  chat "David had the burger"
       [mkAssignment "David" "Burger"]
       (receiptParsed (mkParsed [("Burger", 10%Q); ("Water", 0%Q)] 1 2) initialState).

(** One platter of 14, shared by six. *)
Definition sharedBySix : State :=
  chat "We all shared the platter"
       [mkAssignment "Ann" "Platter"; mkAssignment "Bob" "Platter";
        mkAssignment "Cid" "Platter"; mkAssignment "Dee" "Platter";
        mkAssignment "Eve" "Platter"; mkAssignment "Fay" "Platter"]
       (receiptParsed (mkParsed [("Platter", 14%Q)] 0 0) initialState).

(** The burger is David's; the fries are shared by three. *)
Definition sharedByThree : State :=
  chat "David had the burger, Jane, John and Jill shared the fries"
       [mkAssignment "David" "Burger"; mkAssignment "Jane" "Fries";
        mkAssignment "John" "Fries"; mkAssignment "Jill" "Fries"]
       parsed.

(** The interpreter hands the burger to a person called __proto__. *)
Definition protoNamed : State :=
  chat "__proto__ had the burger" [mkAssignment "__proto__" "Burger"] parsed.

(** Two items of 8, tax 2 and tip 4; David and Jane have one item each. *)
Definition evenSplit : State :=
  chat "David had the burger, Jane the fries"
       [mkAssignment "David" "Burger"; mkAssignment "Jane" "Fries"]
       (receiptParsed (mkParsed [("Burger", 8%Q); ("Fries", 8%Q)] 2 4) initialState).


End Example.

(** ** More vocabulary: strings, uploads, totals *)

(** A string of white space only. *)
Fixpoint allSpace (s : string) : bool :=
  match s with
  | EmptyString => true
  | String c r => is_space c && allSpace r
  end.

(** The character does not occur in the string. *)
Fixpoint lacks (c : ascii) (s : string) : bool :=
  match s with
  | EmptyString => true
  | String d r => negb (Ascii.eqb d c) && lacks c r
  end.

(** The identifiers of the items a person holds, in order. *)
Definition heldIds (person : Person) : list nat := id <$> items person.

(** The item of the receipt an assignment is looked up to on the person
    side: the first one with its name, up to letter case. *)
Definition namedItem (l : list ReceiptItem) (a : Assignment) : option ReceiptItem :=
  List.find (fun i => (toLowerCase (name i) =? toLowerCase (itemName a))%string) l.

(** The text of the model's reply to a chat message. *)
Definition replyText (response : Thrown + list Assignment) : string :=
  match response with
  | inl err => thrown_message err
  | inr [] => nothingAssigned
  | inr assignments => responseText assignments
  end.

(** The state still shows the receipt as it was extracted. *)
Definition showsReceipt (parsedData : ParsedReceipt) (st : State) : Prop :=
  frame <$> receiptItems st
    = imap (fun index item => (index, item.1, item.2)) (parsed_items parsedData)
  /\ tax st = parsed_tax parsedData
  /\ tip st = parsed_tip parsedData
  /\ appState st = splitting
  /\ errorMessage st = None.

(** What the code keeps true of an entry of the person map: it is filed
    under the person's name, the name is in capitalized form, the person
    holds at least one item and no identifier twice. *)
Definition wellKept (n : string) (person : Person) : Prop :=
  person_name person = n
  /\ capitalize n = n
  /\ items person <> []
  /\ NoDup (heldIds person).

(** ** Letters, as the specification speaks of them *)

Definition smallLetters : string := "abcdefghijklmnopqrstuvwxyz".
Definition capitalLetters : string := "ABCDEFGHIJKLMNOPQRSTUVWXYZ".

(** The position of the first occurrence of a character in a string. *)
Fixpoint position (c : ascii) (s : string) : option nat :=
  match s with
  | EmptyString => None
  | String d r => if Ascii.eqb d c then Some O else S <$> position c r
  end.


(** The small letter of a capital letter; any other character is itself. *)
Definition downcase (c : ascii) : ascii :=
  match position c capitalLetters with
  | Some i => default c (String.get i smallLetters)
  | None => c
  end.

Fixpoint mapChars (f : ascii -> ascii) (s : string) : string :=
  match s with
  | EmptyString => EmptyString
  | String c r => String (f c) (mapChars f r)
  end.

(** Two strings are equal case-insensitively when they are equal once every
    capital letter is replaced by its small letter. *)
Definition sameUpToCase (a b : string) : Prop :=
  mapChars downcase a = mapChars downcase b.


(** A string of ASCII characters (codes below 128), on which the built-ins
    of JavaScript and their restrictions above agree. *)
Fixpoint isAscii (s : string) : bool :=
  match s with
  | EmptyString => true
  | String c r => (nat_of_ascii c <? 128)%nat && isAscii r
  end.

(** An assignment targets an item, in the words of the specification. *)
Definition targetsItem (item : ReceiptItem) (a : Assignment) : Prop :=
  sameUpToCase (itemName a) (name item) /\ assignedTo item = [].

#[local] Instance targetsItem_dec item a : Decision (targetsItem item a).
Proof. unfold targetsItem, sameUpToCase. apply _. Defined.

(** ** Sessions on a given receipt *)

(** The states of the session that the extraction [parsedData] opens. *)
Inductive sessionOf (parsedData : ParsedReceipt) : State -> Prop :=
  | sessionOf_open :
      sessionOf parsedData (receiptParsed parsedData initialState)
  | sessionOf_type txt st :
      sessionOf parsedData st -> sessionOf parsedData (set_userMessage txt st)
  | sessionOf_chat assignItems st :
      sessionOf parsedData st -> sessionOf parsedData (handleChatMessage assignItems st)
  | sessionOf_unassign item personName st :
      sessionOf parsedData st -> sessionOf parsedData (unassignItem item personName st).

(** ** Computed amounts and their values *)

#[local] Instance num_eq_dec a b : Decision (num_eq a b).
Proof.
  destruct a as [x|], b as [y|]; simpl; try (right; tauto); try (left; exact I).
  destruct (Qeq_dec x y); [by left|by right].
Defined.

(** The sum of the values of the subtotals the summary holds. *)
Definition peopleSubtotalsIn {N : Type} {A : Arithmetic N} (st : State) : number :=
  map_fold (fun _ sh acc => num_add (valueOf (share_subtotal sh)) acc) (Finite 0)
           (billSummaryIn st).

(** No rounding error shows in the subtotals: the overall subtotal and the
    subtotal of every person come out as the exact sums, and the test
    [=== 0] answers as the exact subtotal does. *)
Definition roundingFree {N : Type} {A : Arithmetic N} (st : State) : Prop :=
  num_eq (valueOf (subtotalIn st)) (Finite (subtotal st))
  /\ isZeroN (subtotalIn st) = Qeq_bool (subtotal st) 0
  /\ map_Forall (fun _ person =>
                   num_eq (valueOf (personSubtotalIn person)) (sumShares (items person)))
                (people st).

(** The sum of the values of the totals the summary holds. *)
Definition peopleTotalsIn {N : Type} {A : Arithmetic N} (st : State) : number :=
  map_fold (fun _ sh acc => num_add (valueOf (share_total sh)) acc) (Finite 0)
           (billSummaryIn st).

(** No rounding error shows in the totals: the total of every person comes
    out as the exact total, and the test [=== 0] answers as the exact
    subtotal does. *)
Definition totalsRoundingFree {N : Type} {A : Arithmetic N} (st : State) : Prop :=
  isZeroN (subtotalIn st) = Qeq_bool (subtotal st) 0
  /\ map_Forall (fun _ person =>
                   num_eq (valueOf (share_total
                                      (personShareIn (subtotalIn st) (ofRational (tax st))
                                                     (ofRational (tip st)) person)))
                          (total_of (personShare (subtotal st) (tax st) (tip st) person)))
                (people st).

(** ** The extraction service seen from the component *)

(** The parser the component calls settles as the service does, wherever
    the service rejects or resolves with a receipt. *)
Definition answersAs (parseReceipt : ReceiptParser)
    (service : string -> option (Thrown + ParsedReceipt)) : Prop :=
  forall data outcome, service data = Some outcome -> parseReceipt data = outcome.


(** * Properties *)

(** ** The chat handler, step by step *)

Lemma chatBegin_None st :
  chatBegin st = None <->
  is_empty (trim (userMessage st)) = true \/ isProcessingChat st = true.
Proof.
  unfold chatBegin.
  destruct (is_empty (trim (userMessage st))), (isProcessingChat st); simpl;
    split; intros H; try done; try (by left); try (by right);
    destruct H; done.
Qed.

Lemma chatBegin_Some st message st1 :
  chatBegin st = Some (message, st1) <->
  is_empty (trim (userMessage st)) = false /\ isProcessingChat st = false /\
  message = trim (userMessage st) /\ st1 = chatStarted st.
Proof.
  unfold chatBegin, chatStarted.
  destruct (is_empty (trim (userMessage st))), (isProcessingChat st); simpl;
    split; try done; try (intros (? & ? & ? & ?); done).
  - intros [= <- <-]. done.
  - intros (_ & _ & -> & ->). done.
Qed.

Lemma handleChatMessage_ignored assignItems st :
  chatResponse assignItems st = None -> handleChatMessage assignItems st = st.
Proof.
  unfold chatResponse, handleChatMessage.
  destruct (chatBegin st) as [[message st1]|]; done.
Qed.

Lemma handleChatMessage_settled assignItems st response :
  chatResponse assignItems st = Some response ->
  is_empty (trim (userMessage st)) = false /\ isProcessingChat st = false /\
  handleChatMessage assignItems st = chatSettle response (chatStarted st).
Proof.
  unfold chatResponse, handleChatMessage.
  destruct (chatBegin st) as [[message st1]|] eqn:Hb; [|done].
  apply chatBegin_Some in Hb as (He & Hp & -> & ->).
  intros [= <-]. done.
Qed.

Lemma chatResponse_cases assignItems st :
  chatResponse assignItems st = None \/
  exists response, chatResponse assignItems st = Some response.
Proof. destruct (chatResponse assignItems st); eauto. Qed.

(** ** What an operation leaves alone in an item *)

Lemma frame_assignOne assignments item :
  frame (assignOne assignments item) = frame item.
Proof. unfold assignOne. by case_match. Qed.

Lemma frame_applyAssignments assignments l :
  frame <$> applyAssignments assignments l = frame <$> l.
Proof.
  unfold applyAssignments. rewrite <- list_fmap_compose.
  apply list_fmap_ext. intros _ item _. apply frame_assignOne.
Qed.

Lemma receiptItems_chatSettle response st :
  receiptItems (chatSettle response st) =
  match response with
  | inr ((_ :: _) as assignments) => applyAssignments assignments (receiptItems st)
  | _ => receiptItems st
  end.
Proof. destruct response as [e|[|a l]]; reflexivity. Qed.

Lemma people_chatSettle response st :
  people (chatSettle response st) =
  match response with
  | inr ((_ :: _) as assignments) =>
      let newReceiptItems := applyAssignments assignments (receiptItems st) in
      syncPeople newReceiptItems (assignPeople assignments newReceiptItems (people st))
  | _ => people st
  end.
Proof. destruct response as [e|[|a l]]; reflexivity. Qed.

Lemma frame_handleChatMessage assignItems st :
  frame <$> receiptItems (handleChatMessage assignItems st) = frame <$> receiptItems st.
Proof.
  destruct (chatResponse_cases assignItems st) as [H|[response H]].
  - by rewrite handleChatMessage_ignored.
  - apply handleChatMessage_settled in H as (_ & _ & ->).
    rewrite receiptItems_chatSettle.
    destruct response as [e|[|a l]]; try done.
    apply frame_applyAssignments.
Qed.

Lemma frame_unassignItem itemToUnassign personName st :
  frame <$> receiptItems (unassignItem itemToUnassign personName st)
  = frame <$> receiptItems st.
Proof.
  unfold unassignItem; simpl. rewrite <- list_fmap_compose.
  apply list_fmap_ext. intros _ item _. simpl. by case_match.
Qed.

(** C10.  Applying a batch of assignments and unassigning a person from an
    item never add or remove receipt items and never change an item's id,
    name or price: the item list keeps its length and order, and the two
    lists agree position by position on (id, name, price). *)
Theorem C10_items_only_change_assignedTo :
  forall (assignItems : Interpreter) (itemToUnassign : ReceiptItem)
         (personName : string) (st : State),
    (frame <$> receiptItems (handleChatMessage assignItems st) = frame <$> receiptItems st
     /\ length (receiptItems (handleChatMessage assignItems st)) = length (receiptItems st))
    /\
    (frame <$> receiptItems (unassignItem itemToUnassign personName st) = frame <$> receiptItems st
     /\ length (receiptItems (unassignItem itemToUnassign personName st))
        = length (receiptItems st)).
Proof.
  intros assignItems itemToUnassign personName st.
  pose proof (frame_handleChatMessage assignItems st) as Hc.
  pose proof (frame_unassignItem itemToUnassign personName st) as Hu.
  repeat split; try done.
  - apply (f_equal length) in Hc. by rewrite !length_fmap in Hc.
  - apply (f_equal length) in Hu. by rewrite !length_fmap in Hu.
Qed.

(** ** Outcomes of a chat message that do not reconcile *)

(** C7.  When the interpreter answers with the empty batch, the item list
    and the person map are exactly what they were, and the caller is told
    so by a chat message from the model: no error is recorded and the
    application state does not move. *)
Theorem C7_empty_batch_changes_nothing :
  forall (assignItems : Interpreter) (st : State),
    chatResponse assignItems st = Some (inr []) ->
    let st' := handleChatMessage assignItems st in
    receiptItems st' = receiptItems st
    /\ people st' = people st
    /\ tax st' = tax st /\ tip st' = tip st
    /\ chatHistory st' =
         chatHistory st ++ [mkMsg user (trim (userMessage st)); mkMsg model nothingAssigned]
    /\ errorMessage st' = errorMessage st
    /\ appState st' = appState st.
Proof.
  intros assignItems st H st'. subst st'.
  apply handleChatMessage_settled in H as (_ & _ & ->).
  cbn. rewrite <- app_assoc. done.
Qed.

(** C9.  Whatever the interpreter answers, once the message has been taken
    up the busy flag ends up cleared and the application state is the one
    it was; when the call throws, the thrown value becomes a chat message
    from the model and items, people and the error signal are untouched. *)
Theorem C9_failure_is_a_chat_message_and_busy_is_cleared :
  forall (assignItems : Interpreter) (st : State) (response : Thrown + list Assignment),
    chatResponse assignItems st = Some response ->
    let st' := handleChatMessage assignItems st in
    isProcessingChat (chatStarted st) = true
    /\ isProcessingChat st' = false
    /\ appState st' = appState st
    /\ (appState st = splitting -> appState st' = splitting)
    /\ forall e, response = inl e ->
         chatHistory st' =
           chatHistory st ++ [mkMsg user (trim (userMessage st)); mkMsg model (thrown_message e)]
         /\ receiptItems st' = receiptItems st
         /\ people st' = people st
         /\ errorMessage st' = errorMessage st.
Proof.
  intros assignItems st response H st'. subst st'.
  apply handleChatMessage_settled in H as (_ & _ & ->).
  assert (Hs : appState (chatSettle response (chatStarted st)) = appState st)
    by (destruct response as [e|[|a l]]; reflexivity).
  split; [reflexivity|]. split; [by destruct response as [e|[|a l]]|].
  split; [exact Hs|]. split; [intros <-; exact Hs|].
  intros e ->. cbn. by rewrite <- app_assoc.
Qed.

(** ** Unassignment *)

Lemma filter_bool_prop {A} (f : A -> bool) (P : A -> Prop)
    `{!forall x, Decision (P x)} (l : list A) :
  (forall x, f x = true <-> P x) -> List.filter f l = filter P l.
Proof.
  intros Hf. induction l as [|x l IH]; [done|].
  simpl. rewrite filter_cons. destruct (decide (P x)) as [HP|HP].
  - apply Hf in HP. rewrite HP. by f_equal.
  - destruct (f x) eqn:E; [|done]. apply Hf in E. done.
Qed.

Lemma not_eqb_string (p q : string) : negb (p =? q)%string = true <-> p <> q.
Proof.
  destruct (String.eqb_spec p q); simpl; split; try done.
Qed.

Lemma not_eqb_id (i j : ReceiptItem) : negb (id i =? id j)%nat = true <-> id i <> id j.
Proof.
  destruct (Nat.eqb_spec (id i) (id j)); simpl; split; try done.
Qed.

(** C6.  Unassigning [personName] from the item with the identifier of
    [itemToUnassign]: that item loses the name and nothing else, every other
    item is as it was, and no item disappears; the person loses that item,
    and is dropped from the map exactly when no item is left; nobody else's
    entry changes. *)
Theorem C6_unassignItem_effect :
  forall (itemToUnassign : ReceiptItem) (personName : string) (st : State),
    let st' := unassignItem itemToUnassign personName st in
    length (receiptItems st') = length (receiptItems st)
    /\ (forall i item, receiptItems st !! i = Some item ->
          exists item', receiptItems st' !! i = Some item'
            /\ frame item' = frame item
            /\ (id item = id itemToUnassign ->
                  assignedTo item' = filter (fun p => p <> personName) (assignedTo item)
                  /\ personName ∉ assignedTo item')
            /\ (id item <> id itemToUnassign -> item' = item))
    /\ (forall person, people st !! personName = Some person ->
          let rest := filter (fun i => id i <> id itemToUnassign) (items person) in
          (rest = [] -> people st' !! personName = None)
          /\ (rest <> [] ->
                people st' !! personName = Some (mkPerson (person_name person) rest)))
    /\ (people st !! personName = None -> people st' = people st)
    /\ (forall other, other <> personName -> people st' !! other = people st !! other).
Proof.
  intros itemToUnassign personName st st'. subst st'.
  split; [|split; [|split; [|split]]].
  - unfold unassignItem; simpl. by rewrite length_map.
  - intros i item Hi. unfold unassignItem; simpl.
    change (@map ?A ?B) with (@fmap list _ A B).
    rewrite list_lookup_fmap, Hi. simpl.
    destruct (Nat.eqb_spec (id item) (id itemToUnassign)) as [E|E].
    + eexists; split; [done|]. split; [done|]. split; [|done].
      intros _. simpl.
      rewrite (filter_bool_prop _ (fun p => p <> personName))
        by (intros x; apply not_eqb_string).
      split; [done|]. rewrite list_elem_of_filter. tauto.
    + eexists; split; [done|]. repeat split; done.
  - intros person Hp rest. unfold unassignItem; simpl. rewrite Hp.
    rewrite (filter_bool_prop _ (fun i => id i <> id itemToUnassign))
      by (intros x; apply not_eqb_id).
    fold rest. destruct rest as [|r rs]; simpl.
    + split; [|done]. intros _. apply lookup_delete_eq.
    + split; [done|]. intros _. apply lookup_insert_eq.
  - intros Hp. unfold unassignItem; simpl. by rewrite Hp.
  - intros other Hne. unfold unassignItem; simpl.
    destruct (people st !! personName) as [person|]; [|done].
    case_match.
    + by rewrite lookup_delete_ne.
    + by rewrite lookup_insert_ne.
Qed.

(** ** Applying a batch: the item side *)

Lemma matchesItem_targets item a : matchesItem item a = true <-> targets item a.
Proof.
  unfold matchesItem, targets. rewrite andb_true_iff, String.eqb_eq, Nat.eqb_eq.
  by rewrite length_zero_iff_nil.
Qed.

Lemma assignedTo_assignOne assignments item :
  assignedTo (assignOne assignments item) =
  assignedTo item
  ++ ((fun a => capitalize (personName a)) <$> filter (targets item) assignments).
Proof.
  unfold assignOne.
  rewrite (filter_bool_prop _ (targets item)) by (intros a; apply matchesItem_targets).
  destruct (filter (targets item) assignments) as [|a l]; simpl.
  - by rewrite app_nil_r.
  - done.
Qed.

Lemma targets_nil_of_assigned item assignments :
  assignedTo item <> [] -> filter (targets item) assignments = [].
Proof.
  intros Hne. induction assignments as [|a l IH]; [done|].
  rewrite filter_cons. destruct (decide (targets item a)) as [[_ H]|_]; done.
Qed.







(** ** Summary calculator *)

Lemma num_eq_refl a : num_eq a a.
Proof. destruct a; simpl; [reflexivity|done]. Qed.

Lemma num_eq_sym a b : num_eq a b -> num_eq b a.
Proof. destruct a, b; simpl; try done; intros H; by symmetry. Qed.

Lemma num_eq_trans a b c : num_eq a b -> num_eq b c -> num_eq a c.
Proof. destruct a, b, c; simpl; try done; intros H1 H2; by rewrite H1. Qed.

Lemma num_add_proper a a' b b' :
  num_eq a a' -> num_eq b b' -> num_eq (num_add a b) (num_add a' b').
Proof. destruct a, a', b, b'; simpl; try done; intros -> ->; reflexivity. Qed.

Lemma num_add_assoc a b c :
  num_eq (num_add (num_add a b) c) (num_add a (num_add b c)).
Proof. destruct a, b, c; simpl; try done; ring. Qed.

Lemma num_add_0_l a : num_eq (num_add (Finite 0) a) a.
Proof. destruct a; simpl; [ring|done]. Qed.

Lemma num_add_0_r a : num_eq (num_add a (Finite 0)) a.
Proof. destruct a; simpl; [ring|done]. Qed.

Lemma reduce_shares (l : list ReceiptItem) (acc : number) :
  num_eq
    (fold_left (fun acc item => num_add acc (divLength (price item) (length (assignedTo item))))
               l acc)
    (num_add acc (sumShares l)).
Proof.
  revert acc. induction l as [|item l IH]; intros acc; simpl.
  - apply num_eq_sym, num_add_0_r.
  - eapply num_eq_trans; [apply IH|]. apply num_add_assoc.
Qed.

Lemma personSubtotal_sumShares t x p person :
  num_eq (subtotal_of (personShare t x p person)) (sumShares (items person)).
Proof.
  unfold personShare; simpl.
  eapply num_eq_trans; [apply reduce_shares|]. apply num_add_0_l.
Qed.

Lemma itemShare_finite item :
  assignedTo item <> [] -> itemShare item = Finite (shareQ item).
Proof.
  unfold itemShare, shareQ. destruct (assignedTo item) as [|n l]; [done|]. done.
Qed.

Lemma sumShares_finite l :
  Forall (fun item => assignedTo item <> []) l ->
  sumShares l = Finite (sumQ shareQ l).
Proof.
  induction 1 as [|x l Hx _ IH]; simpl; [done|].
  by rewrite IH, itemShare_finite.
Qed.

Lemma num_eq_Finite a q : num_eq a (Finite q) -> exists q', a = Finite q' /\ (q' == q)%Q.
Proof. destruct a as [q'|]; simpl; [eauto|done]. Qed.

Lemma sumShares_nonfinite l item :
  item ∈ l -> assignedTo item = [] -> sumShares l = NonFinite.
Proof.
  intros Hin Hnil. induction l as [|x l IH]; [by apply elem_of_nil in Hin|].
  simpl. apply elem_of_cons in Hin as [<-|Hin].
  - unfold itemShare. by rewrite Hnil.
  - rewrite (IH Hin). by destruct (itemShare x).
Qed.

Lemma billSummary_zero st : (subtotal st == 0)%Q -> billSummary st = ∅.
Proof.
  intros H. unfold billSummary. apply Qeq_bool_iff in H. by rewrite H.
Qed.






(** ** Item records held by people *)

Lemma holdings_spec P st :
  holdings P st <->
  forall n person item, people st !! n = Some person -> item ∈ items person -> P n item.
Proof.
  unfold holdings, map_Forall. setoid_rewrite Forall_forall. naive_solver.
Qed.

Lemma syncItem_found (l : list ReceiptItem) (i : ReceiptItem) :
  id i ∈ id <$> l ->
  List.find (fun newItem => (id newItem =? id i)%nat) l = Some (syncItem l i)
  /\ syncItem l i ∈ l /\ id (syncItem l i) = id i.
Proof.
  unfold syncItem. induction l as [|x l IH]; simpl.
  - intros H. by apply elem_of_nil in H.
  - intros H. destruct (Nat.eqb_spec (id x) (id i)) as [E|E]; simpl.
    + repeat split; [left|done].
    + apply elem_of_cons in H as [H|H]; [congruence|].
      destruct (IH H) as (Hf & Hin & Hid). repeat split; [done|by right|done].
Qed.

Lemma ids_of_frames (l l' : list ReceiptItem) :
  frame <$> l = frame <$> l' -> id <$> l = id <$> l'.
Proof.
  intros H. apply (f_equal (fmap (fun f : nat * string * Q => f.1.1))) in H.
  by rewrite <- !list_fmap_compose in H.
Qed.

Lemma assignPerson_holds (P : ReceiptItem -> Prop) newItems m a :
  Forall P newItems ->
  map_Forall (fun _ person => Forall P (items person)) m ->
  map_Forall (fun _ person => Forall P (items person)) (assignPerson newItems m a).
Proof.
  intros Hnew Hm. unfold assignPerson.
  destruct (List.find _ newItems) as [updatedItem|] eqn:Hf; [|done].
  case_match; [|done].
  apply map_Forall_insert_2; [|done]. simpl.
  apply Forall_app; split.
  - destruct (m !! capitalize (personName a)) as [person|] eqn:Hl; simpl.
    + by apply (Hm _ _ Hl).
    + constructor.
  - apply Forall_cons; split; [|constructor].
    apply find_some in Hf as [Hin _].
    rewrite Forall_forall in Hnew. apply Hnew. by apply list_elem_of_In.
Qed.

Lemma assignPeople_holds (P : ReceiptItem -> Prop) newItems assignments m :
  Forall P newItems ->
  map_Forall (fun _ person => Forall P (items person)) m ->
  map_Forall (fun _ person => Forall P (items person))
             (assignPeople assignments newItems m).
Proof.
  intros Hnew. unfold assignPeople. revert m.
  induction assignments as [|a l IH]; intros m Hm; simpl; [done|].
  apply IH. by apply assignPerson_holds.
Qed.

(** After a batch, what anybody holds is a record of the new receipt. *)
Lemma reconcile_holds_current (assignments : list Assignment) (st : State) :
  idsOnReceipt st ->
  holdings (fun _ item => item ∈ receiptItems (reconcile assignments st))
           (reconcile assignments st).
Proof.
  intros Hids. unfold holdings, reconcile; simpl.
  set (newItems := applyAssignments assignments (receiptItems st)).
  assert (Hsame : id <$> newItems = id <$> receiptItems st)
    by apply ids_of_frames, frame_applyAssignments.
  unfold syncPeople. apply map_Forall_fmap. unfold map_Forall; simpl.
  pose proof (assignPeople_holds (fun item => id item ∈ id <$> newItems)
                newItems assignments (people st)) as Hk.
  intros n person Hn. rewrite Forall_fmap. simpl.
  eapply Forall_impl; [eapply Hk; [| |exact Hn]|].
  - apply Forall_forall. intros x Hx. by apply list_elem_of_fmap_2.
  - rewrite Hsame. exact Hids.
  - intros x Hx. simpl. by apply syncItem_found.
Qed.

Lemma holdings_impl (P R : string -> ReceiptItem -> Prop) st :
  (forall n item, P n item -> R n item) -> holdings P st -> holdings R st.
Proof.
  intros HPR. rewrite !holdings_spec. intros H n person item Hn Hi.
  apply HPR. by eapply H.
Qed.

Lemma idsOnReceipt_ext st st' :
  people st' = people st -> receiptItems st' = receiptItems st ->
  idsOnReceipt st -> idsOnReceipt st'.
Proof. unfold idsOnReceipt, holdings. by intros -> ->. Qed.

Lemma idsOnReceipt_reconcile assignments st :
  idsOnReceipt st -> idsOnReceipt (reconcile assignments st).
Proof.
  intros H. eapply holdings_impl; [|by apply reconcile_holds_current].
  intros n item Hin. by apply list_elem_of_fmap_2.
Qed.

Lemma idsOnReceipt_handleChatMessage assignItems st :
  idsOnReceipt st -> idsOnReceipt (handleChatMessage assignItems st).
Proof.
  intros H. destruct (chatResponse_cases assignItems st) as [E|[response E]].
  - by rewrite handleChatMessage_ignored.
  - apply handleChatMessage_settled in E as (_ & _ & ->).
    destruct response as [e|[|a l]]; try (revert H; by apply idsOnReceipt_ext).
    assert (H1 : idsOnReceipt (chatStarted st)) by (revert H; by apply idsOnReceipt_ext).
    apply (idsOnReceipt_reconcile (a :: l)) in H1.
    revert H1. by apply idsOnReceipt_ext.
Qed.

Lemma idsOnReceipt_unassignItem itemToUnassign personName st :
  idsOnReceipt st -> idsOnReceipt (unassignItem itemToUnassign personName st).
Proof.
  unfold idsOnReceipt, holdings. intros H.
  rewrite (ids_of_frames _ _ (frame_unassignItem itemToUnassign personName st)).
  unfold unassignItem; simpl.
  destruct (people st !! personName) as [person|] eqn:Hp; [|done].
  case_match.
  - by apply map_Forall_delete.
  - apply map_Forall_insert_2; [|done]. simpl.
    apply Forall_forall. intros x Hx.
    apply list_elem_of_In, filter_In in Hx as [Hx _].
    specialize (H _ _ Hp). rewrite Forall_forall in H.
    apply H. by apply list_elem_of_In.
Qed.

(** ** Sessions *)

(** In a session the re-synchronisation always finds the item it looks up. *)
Lemma inSession_idsOnReceipt st : inSession st -> idsOnReceipt st.
Proof.
  induction 1 as [d|txt st _ IH|f st _ IH|item p st _ IH].
  - unfold idsOnReceipt, holdings. simpl. apply map_Forall_empty.
  - revert IH. by apply idsOnReceipt_ext.
  - by apply idsOnReceipt_handleChatMessage.
  - by apply idsOnReceipt_unassignItem.
Qed.

Lemma example_states_inSession :
  inSession Example.assigned /\ inSession Example.janeRemoved
  /\ inSession Example.davidTwice /\ inSession Example.burgerAgain.
Proof.
  unfold Example.janeRemoved, Example.assigned, Example.davidTwice,
    Example.burgerAgain, Example.chat, Example.parsed.
  repeat split; repeat constructor.
Qed.

(** The example of the specification: David owes 10 and 10/14 of tax and
    tip; Jane and John owe 2 each and 2/14 of tax and tip. *)
Lemma example_summary :
  receiptItems Example.assigned
    = [Example.burger ["David"]; Example.fries ["Jane"; "John"]]
  /\ (exists sh, billSummary Example.assigned !! "David" = Some sh
        /\ num_eq (subtotal_of sh) (Finite 10)
        /\ num_eq (tax_of sh) (Finite (10 # 14))
        /\ num_eq (tip_of sh) (Finite (20 # 14)))
  /\ (exists sh, billSummary Example.assigned !! "Jane" = Some sh
        /\ num_eq (subtotal_of sh) (Finite 2)
        /\ num_eq (tax_of sh) (Finite (2 # 14))
        /\ num_eq (tip_of sh) (Finite (4 # 14)))
  /\ (exists sh, billSummary Example.assigned !! "John" = Some sh
        /\ num_eq (subtotal_of sh) (Finite 2)
        /\ num_eq (tax_of sh) (Finite (2 # 14))
        /\ num_eq (tip_of sh) (Finite (4 # 14))).
Proof.
  split; [by vm_compute|].
  repeat split; eexists; (split; [by vm_compute|]); by vm_compute.
Qed.

(** ** Finite sums of rationals *)

Section Sums.
Context {A : Type}.
Implicit Types (f g : A -> Q) (l k : list A).

Lemma sumQ_ext f g l :
  (forall x, x ∈ l -> (f x == g x)%Q) -> (sumQ f l == sumQ g l)%Q.
Proof.
  induction l as [|x l IH]; intros H; simpl; [reflexivity|].
  rewrite (H x) by (by left). rewrite IH; [reflexivity|].
  intros y Hy. apply H. by right.
Qed.

Lemma sumQ_perm f l k : l ≡ₚ k -> (sumQ f l == sumQ f k)%Q.
Proof.
  induction 1 as [|x l k _ IH|x y l|l k m _ IH1 _ IH2]; simpl.
  - reflexivity.
  - by rewrite IH.
  - ring.
  - by rewrite IH1.
Qed.

Lemma sumQ_plus f g l :
  (sumQ (fun x => f x + g x) l == sumQ f l + sumQ g l)%Q.
Proof. induction l as [|x l IH]; simpl; [ring|]. rewrite IH. ring. Qed.

Lemma sumQ_zero l : (sumQ (fun _ => 0) l == 0)%Q.
Proof. induction l as [|x l IH]; simpl; [reflexivity|]. rewrite IH. ring. Qed.

Lemma sumQ_le f g l :
  (forall x, x ∈ l -> (f x <= g x)%Q) -> (sumQ f l <= sumQ g l)%Q.
Proof.
  induction l as [|x l IH]; intros H; simpl; [lra|].
  assert (f x <= g x)%Q by (apply H; by left).
  assert (sumQ f l <= sumQ g l)%Q by (apply IH; intros y Hy; apply H; by right).
  lra.
Qed.

Lemma sumQ_eq_pointwise f g l :
  (forall x, x ∈ l -> (f x <= g x)%Q) ->
  (sumQ f l == sumQ g l)%Q -> forall x, x ∈ l -> (f x == g x)%Q.
Proof.
  induction l as [|y l IH]; intros Hle Heq x Hx; [by apply elem_of_nil in Hx|].
  simpl in Heq.
  assert (f y <= g y)%Q by (apply Hle; by left).
  assert (Hl : forall z, z ∈ l -> (f z <= g z)%Q) by (intros z Hz; apply Hle; by right).
  pose proof (sumQ_le f g l Hl).
  apply elem_of_cons in Hx as [->|Hx]; [lra|].
  apply IH; [done| lra | done].
Qed.

Lemma sumQ_count (P : A -> Prop) `{!forall x, Decision (P x)} (c : Q) l :
  (sumQ (fun y => if decide (P y) then c else 0) l
   == inject_Z (Z.of_nat (length (filter P l))) * c)%Q.
Proof.
  induction l as [|x l IH]; simpl; [ring|].
  rewrite filter_cons. destruct (decide (P x)); rewrite IH; [|ring].
  simpl length. rewrite Nat2Z.inj_succ. unfold Z.succ. rewrite inject_Z_plus. ring.
Qed.

Lemma sumQ_indicator `{!EqDecision A} f l R :
  NoDup l -> NoDup R -> (forall x, x ∈ l -> x ∈ R) ->
  (sumQ f l == sumQ (fun x => if decide (x ∈ l) then f x else 0) R)%Q.
Proof.
  intros Hl HR. revert l Hl. induction HR as [|x R Hx HR IH]; intros l Hl Hsub.
  - destruct l as [|y l]; [reflexivity|].
    exfalso. eapply not_elem_of_nil, Hsub. by left.
  - simpl. destruct (decide (x ∈ l)) as [Hin|Hin].
    + apply elem_of_Permutation in Hin as [k Hk].
      assert (Hnd : NoDup (x :: k)) by (by rewrite <- Hk).
      apply NoDup_cons in Hnd as [Hxk Hnk].
      rewrite (sumQ_perm f _ _ Hk). simpl.
      rewrite (IH k Hnk).
      * apply Qplus_comp; [reflexivity|]. apply sumQ_ext. intros y Hy.
        assert (y <> x) by (intros ->; done).
        destruct (decide (y ∈ k)) as [Hyk|Hyk], (decide (y ∈ l)) as [Hyl|Hyl];
          try reflexivity.
        -- exfalso. apply Hyl. rewrite Hk. by right.
        -- exfalso. rewrite Hk in Hyl. apply elem_of_cons in Hyl as [?|?]; done.
      * intros y Hy. assert (Hyl : y ∈ l) by (rewrite Hk; by right).
        apply Hsub, elem_of_cons in Hyl as [->|?]; done.
    + rewrite (IH l Hl); [ring|].
      intros y Hy. pose proof (Hsub y Hy) as Hy'.
      apply elem_of_cons in Hy' as [->|?]; done.
Qed.

End Sums.

Lemma sumQ_swap {A B} (g : A -> B -> Q) (la : list A) (lb : list B) :
  (sumQ (fun a => sumQ (g a) lb) la == sumQ (fun b => sumQ (fun a => g a b) la) lb)%Q.
Proof.
  induction la as [|a la IH]; simpl.
  - by rewrite sumQ_zero.
  - rewrite IH. by rewrite sumQ_plus.
Qed.


(** ** The shares of a consistent state add up *)

Lemma subtotal_sumQ st : (subtotal st == sumQ price (receiptItems st))%Q.
Proof.
  unfold subtotal.
  assert (H : forall l a, (fold_left (fun acc item => acc + price item) l a
                           == a + sumQ price l)%Q).
  { induction l as [|x l IH]; intros a; simpl; [ring|]. rewrite IH. ring. }
  rewrite H. ring.
Qed.

Lemma count_holders st x :
  consistent st -> x ∈ receiptItems st ->
  length (filter (fun np : string * Person => x ∈ items np.2) (map_to_list (people st)))
  = length (assignedTo x).
Proof.
  intros (Hids & Hitems & Hpeople) Hx.
  rewrite Forall_forall in Hitems. destruct (Hitems x Hx) as [Hnd Hnamed].
  rewrite Forall_forall in Hnamed.
  rewrite <- (length_fmap fst). apply Permutation_length, NoDup_Permutation.
  - apply (sublist_NoDup _ (map_to_list (people st)).*1);
      [apply NoDup_fst_map_to_list | apply fmap_sublist, sublist_filter].
  - done.
  - intros n. rewrite list_elem_of_fmap. split.
    + intros ([n' p] & -> & Hin). apply list_elem_of_filter in Hin as [Hheld Hin].
      apply elem_of_map_to_list in Hin. destruct (Hpeople _ _ Hin) as (_ & Hsub & _).
      rewrite Forall_forall in Hsub. by apply (Hsub x).
    + intros Hn. destruct (Hnamed n Hn) as [p Hp].
      exists (n, p). split; [done|]. apply list_elem_of_filter. split.
      * destruct (Hpeople _ _ Hp) as (_ & _ & Hall).
        rewrite Forall_forall in Hall. by apply (Hall x).
      * by apply elem_of_map_to_list.
Qed.

Lemma holders_times_share x :
  (inject_Z (Z.of_nat (length (assignedTo x))) * shareQ x == assignedPrice x)%Q.
Proof.
  unfold shareQ, assignedPrice. destruct (assignedTo x) as [|n l]; simpl length.
  - rewrite decide_True by done. simpl. ring.
  - rewrite decide_False by done. field.
    unfold Qeq, inject_Z. simpl Qnum. simpl Qden. lia.
Qed.

Lemma shares_double_count st :
  consistent st ->
  (sumQ (fun np : string * Person => sumQ shareQ (items np.2)) (map_to_list (people st))
   == sumQ assignedPrice (receiptItems st))%Q.
Proof.
  intros Hc. pose proof Hc as (Hids & Hitems & Hpeople).
  apply NoDup_fmap_1 in Hids.
  rewrite (sumQ_ext _
             (fun np : string * Person =>
                sumQ (fun x => if decide (x ∈ items np.2) then shareQ x else 0%Q)
                     (receiptItems st))).
  - rewrite sumQ_swap. apply sumQ_ext. intros x Hx.
    rewrite (sumQ_count (fun np : string * Person => x ∈ items np.2)).
    rewrite (count_holders st x Hc Hx). apply holders_times_share.
  - intros [n p] Hin. apply elem_of_map_to_list in Hin.
    destruct (Hpeople _ _ Hin) as (Hnd & Hsub & _). simpl.
    apply sumQ_indicator; [done|done|].
    rewrite Forall_forall in Hsub. intros y Hy. by apply Hsub.
Qed.

Lemma consistent_held_assigned st :
  consistent st ->
  Forall (fun np : string * Person => Forall (fun item => assignedTo item <> []) (items np.2))
         (map_to_list (people st)).
Proof.
  intros (_ & _ & Hpeople). apply Forall_forall. intros [n p] Hin.
  apply elem_of_map_to_list in Hin. destruct (Hpeople _ _ Hin) as (_ & Hsub & _).
  simpl. eapply Forall_impl; [exact Hsub|]. intros item [_ Hn] E.
  rewrite E in Hn. by apply elem_of_nil in Hn.
Qed.

Lemma consistent_inSync st : consistent st -> inSync st.
Proof.
  intros (_ & _ & Hpeople). unfold inSync, holdings.
  intros n person Hn. by destruct (Hpeople n person Hn) as (_ & H & _).
Qed.

Lemma assignedPrice_le item :
  (0 <= price item)%Q -> (assignedPrice item <= price item)%Q.
Proof. intros H. unfold assignedPrice. case_decide; lra. Qed.

Lemma assignedPrice_sum l :
  Forall (fun item => (0 <= price item)%Q) l ->
  (0 <= sumQ assignedPrice l)%Q
  /\ (sumQ assignedPrice l <= sumQ price l)%Q
  /\ ((sumQ assignedPrice l == sumQ price l)%Q <->
      Forall (fun item => assignedTo item = [] -> (price item == 0)%Q) l).
Proof.
  intros Hpos. rewrite Forall_forall in Hpos.
  assert (Hle : forall x, x ∈ l -> (assignedPrice x <= price x)%Q)
    by (intros x Hx; by apply assignedPrice_le, Hpos).
  split; [|split; [by apply sumQ_le|]].
  - rewrite <- (sumQ_zero l). apply sumQ_le. intros x Hx.
    specialize (Hpos x Hx). unfold assignedPrice. case_decide; lra.
  - rewrite Forall_forall. split.
    + intros Heq x Hx Hnil.
      pose proof (sumQ_eq_pointwise _ _ _ Hle Heq x Hx) as E.
      unfold assignedPrice in E. rewrite decide_True in E by done. by symmetry.
    + intros Hfree. apply sumQ_ext. intros x Hx. unfold assignedPrice.
      case_decide as Hnil; [|reflexivity]. symmetry. by apply Hfree.
Qed.

Lemma ownProperties_id {V} (object : gmap string V) :
  object !! "__proto__" = None -> ownProperties object = object.
Proof.
  intros H. apply map_filter_id. intros n v Hn E. simpl in E. subst n. congruence.
Qed.

Lemma people_foldIn {N} {A : Arithmetic N} (t x y : N) (L : list (string * Person)) :
  Forall (fun np => num_eq (valueOf (personSubtotalIn np.2)) (sumShares (items np.2))) L ->
  Forall (fun np => Forall (fun item => assignedTo item <> []) (items np.2)) L ->
  num_eq
    (foldr (uncurry (fun (_ : string) sh acc => num_add (valueOf (share_subtotal sh)) acc))
           (Finite 0)
           (prod_map Datatypes.id (personShareIn t x y) <$> L))
    (Finite (sumQ (fun np => sumQ shareQ (items np.2)) L)).
Proof.
  induction 1 as [|[n p] L Hp _ IH]; intros Hall; simpl; [reflexivity|].
  apply Forall_cons in Hall as [Hp' Hall]. simpl in Hp, Hp'.
  rewrite sumShares_finite in Hp by done.
  apply (num_add_proper _ _ _ _ Hp (IH Hall)).
Qed.

Lemma peopleSubtotalsIn_consistent {N} {A : Arithmetic N} st :
  consistent st ->
  Forall (fun item => (0 <= price item)%Q) (receiptItems st) ->
  people st !! "__proto__" = None ->
  roundingFree st ->
  num_eq (peopleSubtotalsIn st) (Finite (sumQ assignedPrice (receiptItems st))).
Proof.
  intros Hc Hpos Hproto (_ & Hzero & Hpeople).
  unfold peopleSubtotalsIn. rewrite map_fold_foldr.
  unfold billSummaryIn. rewrite Hzero. destruct (Qeq_bool (subtotal st) 0) eqn:E.
  - rewrite map_to_list_empty. simpl.
    apply Qeq_bool_iff in E. rewrite subtotal_sumQ in E.
    destruct (assignedPrice_sum _ Hpos) as (H0 & Hle & _). lra.
  - rewrite ownProperties_id by (by rewrite lookup_fmap, Hproto).
    rewrite map_to_list_fmap.
    eapply num_eq_trans;
      [apply people_foldIn; [|apply consistent_held_assigned, Hc]|].
    + apply Forall_forall. intros [n person] Hin.
      apply elem_of_map_to_list in Hin. apply (Hpeople _ _ Hin).
    + simpl. by apply shares_double_count.
Qed.

(** Exact arithmetic has no rounding error, in any state. *)
Lemma exact_divLength p n :
  divN (Finite p) (ofLength n : number) = divLength p n.
Proof.
  destruct n as [|n]; [reflexivity|].
  cbn -[Z.of_nat inject_Z]. destruct (Qeq_bool _ 0) eqn:E; [|reflexivity].
  apply Qeq_bool_iff in E. exfalso. revert E.
  unfold Qeq, inject_Z. simpl Qnum. simpl Qden. lia.
Qed.

Lemma exact_subtotalIn st : (subtotalIn st : number) = Finite (subtotal st).
Proof.
  unfold subtotalIn, subtotal. cbn [ofRational addN exact].
  generalize 0%Q. induction (receiptItems st) as [|x l IH]; intros a; simpl; [done|].
  apply IH.
Qed.

Lemma exact_personSubtotalIn person :
  num_eq (personSubtotalIn person : number) (sumShares (items person)).
Proof.
  unfold personSubtotalIn.
  assert (E : forall l acc,
             fold_left (fun (acc : number) item =>
                          addN acc (divN (ofRational (price item))
                                         (ofLength (length (assignedTo item))))) l acc
             = fold_left (fun acc item =>
                            num_add acc (divLength (price item) (length (assignedTo item))))
                         l acc).
  { induction l as [|x l IH]; intros acc; simpl; [done|].
    rewrite IH. do 2 f_equal. apply exact_divLength. }
  rewrite E. eapply num_eq_trans; [apply reduce_shares|]. apply num_add_0_l.
Qed.

Lemma exact_roundingFree st : roundingFree (N := number) st.
Proof.
  unfold roundingFree. rewrite exact_subtotalIn. split; [apply num_eq_refl|].
  split; [reflexivity|]. intros n person _. apply exact_personSubtotalIn.
Qed.

(** C3.  Whatever the arithmetic of numbers is, binary64 included: in a
    state where items and people describe the same assignment, no price is
    negative, nobody is named __proto__, and the subtotals are computed
    without rounding error, the subtotals of the people add up to at most
    the subtotal of the receipt, and to exactly the subtotal when, and only
    when, every item without an assignee has price zero. *)
Theorem C3_shares_add_up_when_consistent :
  forall (N : Type) (A : Arithmetic N) (st : State),
    consistent st ->
    Forall (fun item => (0 <= price item)%Q) (receiptItems st) ->
    people st !! "__proto__" = None ->
    roundingFree st ->
    exists q t,
      peopleSubtotalsIn st = Finite q
      /\ valueOf (subtotalIn st) = Finite t
      /\ (q <= t)%Q
      /\ ((q == t)%Q <->
          Forall (fun item => assignedTo item = [] -> (price item == 0)%Q)
                 (receiptItems st)).
Proof.
  intros N A st Hc Hpos Hproto Hround.
  destruct (num_eq_Finite _ _ (peopleSubtotalsIn_consistent st Hc Hpos Hproto Hround))
    as (q & Hq & Hsum).
  destruct Hround as (Hsub & _).
  destruct (num_eq_Finite _ _ Hsub) as (t & Ht & Hsub').
  exists q, t. split; [exact Hq|]. split; [exact Ht|].
  rewrite Hsum, Hsub', subtotal_sumQ.
  destruct (assignedPrice_sum _ Hpos) as (_ & Hle & Hiff). by split.
Qed.

(** On a receipt with a complimentary item the subtotals add up to the
    subtotal of the receipt although the item was never assigned. *)
Lemma C3_free_item_counterexample :
  inSession Example.freeWater
  /\ consistent Example.freeWater
  /\ (sharesWithinSubtotal Example.freeWater -> False).
Proof.
  split; [unfold Example.freeWater, Example.chat; repeat constructor|].
  split; [apply (bool_decide_unpack _); by vm_compute|].
  intros (q & Hq & _ & Hiff).
  assert (Hq' : peopleSubtotals Example.freeWater = Finite 10) by (by vm_compute).
  rewrite Hq' in Hq. injection Hq as <-.
  assert (Hall : everyItemAssigned Example.freeWater)
    by (apply Hiff; by vm_compute).
  revert Hall. apply (bool_decide_eq_false_1 _). by vm_compute.
Qed.

(** ** Where the code leaves the data model *)

(** C1.  The invariant holds after the batch of the example, and taking
    Jane off the shared fries breaks it: the receipt's fries now list John
    alone, while the record John holds still lists Jane and John.
    [unassignItem] rewrites the item and Jane's entry and leaves the records
    held by the other assignees as they were. *)
Theorem C1_unassign_leaves_stale_record :
  inSession Example.janeRemoved
  /\ inSync Example.assigned
  /\ receiptItems Example.janeRemoved
       = [Example.burger ["David"]; Example.fries ["John"]]
  /\ people Example.janeRemoved !! "John"
       = Some (mkPerson "John" [Example.fries ["Jane"; "John"]])
  /\ (Example.fries ["Jane"; "John"] ∉ receiptItems Example.janeRemoved)
  /\ (inSync Example.janeRemoved -> False).
Proof.
  split; [apply example_states_inSession|].
  split; [apply (bool_decide_unpack _); by vm_compute|].
  split; [by vm_compute|]. split; [by vm_compute|].
  split; [apply (bool_decide_unpack _); by vm_compute|].
  apply (bool_decide_eq_false_1 _). by vm_compute.
Qed.

(** A second way out of the invariant: a batch that names an item which
    already has an assignee leaves the item alone and still hands it to the
    person named. *)
Lemma batch_on_assigned_item_breaks_sync :
  receiptItems Example.burgerAgain = [Example.burger ["David"]; Example.fries []]
  /\ people Example.burgerAgain !! "Jane"
       = Some (mkPerson "Jane" [Example.burger ["David"]])
  /\ (inSync Example.burgerAgain -> False).
Proof.
  split; [by vm_compute|]. split; [by vm_compute|].
  apply (bool_decide_eq_false_1 _). by vm_compute.
Qed.

(** The stale record shows in the bill: after Jane is taken off the fries
    every item of the receipt has an assignee, and yet the subtotals of the
    people add up to 12 while the receipt's subtotal is 14, because John's
    share of the fries is still computed from the record that lists two
    assignees. *)
Lemma stale_record_shrinks_shares :
  inSession Example.janeRemoved
  /\ everyItemAssigned Example.janeRemoved
  /\ exists q, peopleSubtotals Example.janeRemoved = Finite q
       /\ (q == 12)%Q
       /\ (subtotal Example.janeRemoved == 14)%Q
       /\ (q < subtotal Example.janeRemoved)%Q.
Proof.
  split; [apply example_states_inSession|].
  split; [apply (bool_decide_unpack _); by vm_compute|].
  eexists. split; [by vm_compute|]. by vm_compute.
Qed.

(** Shares can also exceed the receipt: when the burger is named again for
    Jane, David and Jane are charged 10 each against a receipt of 14. *)
Lemma shares_can_exceed_subtotal :
  inSession Example.burgerAgain
  /\ exists q, peopleSubtotals Example.burgerAgain = Finite q
       /\ (q == 20)%Q
       /\ (subtotal Example.burgerAgain < q)%Q.
Proof.
  split; [apply example_states_inSession|].
  eexists. split; [by vm_compute|]. by vm_compute.
Qed.

(** Rounding alone breaks the bound.  One platter of 14 is shared by six:
    the state is consistent, and in binary64 each of the six subtotals is
    14/6 rounded up, so that the six add up to more than the 14 of the
    receipt. *)
Lemma rounding_can_exceed_subtotal :
  inSession Example.sharedBySix
  /\ consistent Example.sharedBySix
  /\ everyItemAssigned Example.sharedBySix
  /\ exists q t,
       peopleSubtotalsIn (N := float) Example.sharedBySix = Finite q
       /\ floatValue (subtotalIn Example.sharedBySix) = Finite t
       /\ (t == 14)%Q
       /\ (t < q)%Q.
Proof.
  split; [unfold Example.sharedBySix, Example.chat; repeat constructor|].
  split; [apply (bool_decide_unpack _); by vm_compute|].
  split; [apply (bool_decide_unpack _); by vm_compute|].
  eexists _, _. split; [by vm_compute|]. split; [by vm_compute|]. by vm_compute.
Qed.

(** Rounding also breaks the equality.  With the fries of 4 shared by three,
    every item has an assignee, and in binary64 the subtotals of the four
    people add up to less than the 14 of the receipt. *)
Lemma rounding_can_fall_short :
  inSession Example.sharedByThree
  /\ consistent Example.sharedByThree
  /\ everyItemAssigned Example.sharedByThree
  /\ exists q t,
       peopleSubtotalsIn (N := float) Example.sharedByThree = Finite q
       /\ floatValue (subtotalIn Example.sharedByThree) = Finite t
       /\ (t == 14)%Q
       /\ (q < t)%Q.
Proof.
  split; [unfold Example.sharedByThree, Example.chat; repeat constructor|].
  split; [apply (bool_decide_unpack _); by vm_compute|].
  split; [apply (bool_decide_unpack _); by vm_compute|].
  eexists _, _. split; [by vm_compute|]. split; [by vm_compute|]. by vm_compute.
Qed.

(** The complimentary item owes nothing to the arithmetic: the state with
    the free water is free of rounding error in binary64 too, where the
    subtotals add up to the 10 of the receipt with the water unassigned. *)
Lemma free_item_in_binary64 :
  roundingFree (N := float) Example.freeWater
  /\ people Example.freeWater !! "__proto__" = None
  /\ (everyItemAssigned Example.freeWater -> False)
  /\ exists q t,
       peopleSubtotalsIn (N := float) Example.freeWater = Finite q
       /\ floatValue (subtotalIn Example.freeWater) = Finite t
       /\ (q == t)%Q.
Proof.
  split; [apply (bool_decide_unpack _); by vm_compute|].
  split; [by vm_compute|].
  split; [apply (bool_decide_eq_false_1 _); by vm_compute|].
  eexists _, _. split; [by vm_compute|]. split; [by vm_compute|]. by vm_compute.
Qed.

(** Duplicates can only come from the batch: an item keeps a duplicate-free
    [assignedTo] when the assignments that target it carry distinct
    capitalized names, and unassigning never introduces one. *)
Lemma assignOne_NoDup assignments item :
  NoDup (assignedTo item) ->
  NoDup ((fun a => capitalize (personName a)) <$> filter (targets item) assignments) ->
  NoDup (assignedTo (assignOne assignments item)).
Proof.
  intros Hold Hnew. rewrite assignedTo_assignOne.
  destruct (decide (assignedTo item = [])) as [E|E].
  - by rewrite E.
  - rewrite targets_nil_of_assigned by done. simpl. by rewrite app_nil_r.
Qed.

Lemma unassignItem_NoDup itemToUnassign personName st :
  Forall (fun item => NoDup (assignedTo item)) (receiptItems st) ->
  Forall (fun item => NoDup (assignedTo item))
         (receiptItems (unassignItem itemToUnassign personName st)).
Proof.
  intros H. unfold unassignItem; simpl.
  change (@map ?A ?B) with (@fmap list _ A B).
  rewrite Forall_fmap. eapply Forall_impl; [exact H|].
  intros item Hnd. simpl. case_match; [|done]. simpl.
  rewrite (filter_bool_prop _ (fun p => p <> personName))
    by (intros x; apply not_eqb_string).
  by apply NoDup_filter.
Qed.

(** C5.  A batch that holds the pair (David, Burger) twice puts David twice
    into the burger's [assignedTo]; David holds the burger once and is
    charged half of it. *)
Theorem C5_same_pair_twice_lists_assignee_twice :
  inSession Example.davidTwice
  /\ receiptItems Example.davidTwice
       = [Example.burger ["David"; "David"]; Example.fries []]
  /\ (NoDup (assignedTo (Example.burger ["David"; "David"])) -> False)
  /\ people Example.davidTwice !! "David"
       = Some (mkPerson "David" [Example.burger ["David"; "David"]])
  /\ (exists sh, billSummary Example.davidTwice !! "David" = Some sh
        /\ num_eq (subtotal_of sh) (Finite 5)).
Proof.
  split; [apply example_states_inSession|].
  split; [by vm_compute|].
  split; [apply (bool_decide_eq_false_1 _); by vm_compute|].
  split; [by vm_compute|].
  eexists. split; by vm_compute.
Qed.

(** ** The theorems at work on the example *)


Lemma C3_witness :
  consistent Example.assigned
  /\ roundingFree (N := float) Example.assigned
  /\ exists q t,
       peopleSubtotalsIn (N := float) Example.assigned = Finite q
       /\ floatValue (subtotalIn Example.assigned) = Finite t
       /\ (q <= t)%Q
       /\ ((q == t)%Q <->
           Forall (fun item => assignedTo item = [] -> (price item == 0)%Q)
                  (receiptItems Example.assigned)).
Proof.
  assert (Hc : consistent Example.assigned)
    by (apply (bool_decide_unpack _); vm_compute; reflexivity).
  assert (Hr : roundingFree (N := float) Example.assigned)
    by (apply (bool_decide_unpack _); vm_compute; reflexivity).
  split; [exact Hc|]. split; [exact Hr|].
  apply (C3_shares_add_up_when_consistent float binary64 Example.assigned Hc).
  - apply (bool_decide_unpack _). vm_compute. reflexivity.
  - vm_compute. reflexivity.
  - exact Hr.
Defined.


Lemma C7_witness :
  let ask := set_userMessage "hello" Example.assigned in
  chatResponse (Example.answering []) ask = Some (inr [])
  /\ receiptItems (handleChatMessage (Example.answering []) ask) = receiptItems ask
  /\ people (handleChatMessage (Example.answering []) ask) = people ask
  /\ tax (handleChatMessage (Example.answering []) ask) = tax ask
  /\ tip (handleChatMessage (Example.answering []) ask) = tip ask
  /\ chatHistory (handleChatMessage (Example.answering []) ask) =
       chatHistory ask ++ [mkMsg user (trim (userMessage ask)); mkMsg model nothingAssigned]
  /\ errorMessage (handleChatMessage (Example.answering []) ask) = errorMessage ask
  /\ appState (handleChatMessage (Example.answering []) ask) = appState ask.
Proof.
  split; [vm_compute; reflexivity|].
  apply (C7_empty_batch_changes_nothing (Example.answering [])
           (set_userMessage "hello" Example.assigned)).
  vm_compute. reflexivity.
Defined.


Lemma C9_witness :
  let ask := set_userMessage "hm" Example.assigned in
  chatResponse Example.failing ask
    = Some (inl (ErrorObject "I had trouble understanding that. Could you please rephrase?"))
  /\ isProcessingChat (handleChatMessage Example.failing ask) = false
  /\ appState (handleChatMessage Example.failing ask) = splitting
  /\ chatHistory (handleChatMessage Example.failing ask) =
       chatHistory ask
       ++ [mkMsg user "hm";
           mkMsg model "I had trouble understanding that. Could you please rephrase?"].
Proof.
  split; [vm_compute; reflexivity|].
  pose proof (C9_failure_is_a_chat_message_and_busy_is_cleared Example.failing
                (set_userMessage "hm" Example.assigned) _ eq_refl)
    as (_ & Hbusy & _ & Hstate & Hthrown).
  split; [exact Hbusy|]. split; [exact (Hstate eq_refl)|].
  exact (proj1 (Hthrown _ eq_refl)).
Defined.

(** * Further properties of the code *)

(** ** Strings *)

Lemma upper_ascii_idempotent c : upper_ascii (upper_ascii c) = upper_ascii c.
Proof. destruct c as [[] [] [] [] [] [] [] []]; reflexivity. Qed.

Lemma trimStart_empty s : trimStart s = EmptyString <-> allSpace s = true.
Proof.
  induction s as [|c r IH]; simpl; [done|].
  destruct (is_space c); simpl; [exact IH|]. split; discriminate.
Qed.

Lemma trimStart_head s c r : trimStart s = String c r -> is_space c = false.
Proof.
  induction s as [|d t IH]; simpl; [discriminate|].
  destruct (is_space d) eqn:E; [exact IH|]. by intros [= <- _].
Qed.

Lemma trimEnd_nonempty c r : is_space c = false -> trimEnd (String c r) <> EmptyString.
Proof. intros H. simpl. destruct (trimEnd r); [by rewrite H|done]. Qed.

Lemma trim_empty s : trim s = EmptyString <-> allSpace s = true.
Proof.
  unfold trim. rewrite <- trimStart_empty.
  destruct (trimStart s) as [|c r] eqn:E; [done|].
  split; [|discriminate]. intros H. exfalso.
  by apply (trimEnd_nonempty c r (trimStart_head _ _ _ E)).
Qed.


Lemma indexOf_lacks c s : lacks c s = true -> indexOf c s = (-1)%Z.
Proof.
  induction s as [|d r IH]; simpl; [done|].
  destruct (Ascii.eqb d c); simpl; [discriminate|]. intros H. by rewrite IH.
Qed.

Lemma indexOf_bounds c s :
  (indexOf c s = -1 \/ 0 <= indexOf c s < Z.of_nat (String.length s))%Z.
Proof.
  induction s as [|d r IH]; simpl; [by left|].
  destruct (Ascii.eqb d c); [right; lia|].
  destruct (Z.eqb_spec (indexOf c r) (-1)); [by left|right; lia].
Qed.

Lemma indexOf_first c p r :
  lacks c p = true ->
  indexOf c (p +:+ String c r) = Z.of_nat (String.length p).
Proof.
  induction p as [|d p IH]; simpl.
  - by rewrite Ascii.eqb_refl.
  - destruct (Ascii.eqb d c); simpl; [discriminate|]. intros H.
    rewrite (IH H). destruct (Z.eqb_spec (Z.of_nat (String.length p)) (-1)); lia.
Qed.

Lemma append_snoc h c t : (h +:+ String c EmptyString) +:+ t = h +:+ String c t.
Proof.
  induction h as [|d h IH]; [reflexivity|].
  change (String d ((h +:+ String c EmptyString) +:+ t) = String d (h +:+ String c t)).
  by rewrite IH.
Qed.

Lemma dropChars_app p r : dropChars (String.length p) (p +:+ r) = r.
Proof. induction p as [|d p IH]; simpl; [by destruct r|exact IH]. Qed.

(** X13.  What [fileToBase64] keeps of the reader's result: everything
    after the first comma, so a data URL loses its header whatever the
    payload is; a result without a comma is kept whole. *)
Theorem stripDataUrlPrefix_spec :
  forall (header payload : string),
    lacks comma header = true ->
    stripDataUrlPrefix (header +:+ String comma payload) = payload
    /\ stripDataUrlPrefix header = header.
Proof.
  intros header payload H. unfold stripDataUrlPrefix, substringFrom. split.
  - rewrite indexOf_first by done.
    replace (Z.to_nat (Z.max 0 (Z.of_nat (String.length header) + 1)))
      with (String.length (header +:+ String comma EmptyString)).
    + replace (header +:+ String comma payload)
        with ((header +:+ String comma EmptyString) +:+ payload).
      * apply dropChars_app.
      * apply append_snoc.
    + assert (E : forall h t, String.length (h +:+ t) = String.length h + String.length t).
      { clear. induction h as [|d h IH]; intros t; [reflexivity|].
        change (S (String.length (h +:+ t)) = S (String.length h + String.length t)).
        by rewrite IH. }
      rewrite E. simpl. lia.
  - rewrite indexOf_lacks by done. reflexivity.
Qed.

Lemma stripDataUrlPrefix_witness :
  lacks comma "data:image/jpeg;base64" = true
  /\ stripDataUrlPrefix "data:image/jpeg;base64,QUJD,REVG" = "QUJD,REVG"
  /\ stripDataUrlPrefix "data:image/jpeg;base64" = "data:image/jpeg;base64".
Proof.
  split; [reflexivity|].
  exact (stripDataUrlPrefix_spec "data:image/jpeg;base64" "QUJD,REVG" eq_refl).
Defined.

(** ** The chat handler as a whole *)

Lemma chatHistory_chatSettle response st :
  chatHistory (chatSettle response st)
  = chatHistory st ++ [mkMsg model (replyText response)].
Proof. destruct response as [e|[|a l]]; reflexivity. Qed.

Lemma untouched_by_chatSettle response st :
  tax (chatSettle response st) = tax st
  /\ tip (chatSettle response st) = tip st
  /\ appState (chatSettle response st) = appState st
  /\ errorMessage (chatSettle response st) = errorMessage st
  /\ userMessage (chatSettle response st) = userMessage st.
Proof. destruct response as [e|[|a l]]; repeat split. Qed.

(** X8.  A chat message of ASCII characters is dropped, leaving the whole
    state as it is, exactly when it consists of white space only or another
    message is still being processed. *)
Theorem handleChatMessage_ignored_iff_blank_or_busy :
  forall (assignItems : Interpreter) (st : State),
    isAscii (userMessage st) = true ->
    (handleChatMessage assignItems st = st
     <-> allSpace (userMessage st) = true \/ isProcessingChat st = true).
Proof.
  intros assignItems st _. rewrite <- trim_empty. split.
  - intros Hsame.
    destruct (chatResponse_cases assignItems st) as [E|[response E]].
    + unfold chatResponse in E.
      destruct (chatBegin st) as [[m s1]|] eqn:Hb; [done|].
      apply chatBegin_None in Hb as [Hb|Hb]; [left|by right].
      by destruct (trim (userMessage st)).
    + apply handleChatMessage_settled in E as (_ & _ & E).
      rewrite E in Hsame. apply (f_equal (fun s => length (chatHistory s))) in Hsame.
      rewrite chatHistory_chatSettle in Hsame. cbn in Hsame.
      rewrite !length_app in Hsame. simpl in Hsame. lia.
  - intros H. apply handleChatMessage_ignored. unfold chatResponse.
    destruct (chatBegin st) as [[m s1]|] eqn:Hb; [|done].
    apply chatBegin_Some in Hb as (He & Hp & _).
    destruct H as [H|H]; [rewrite H in He; done|congruence].
Qed.

Lemma handleChatMessage_ignored_iff_blank_or_busy_witness :
  let blank := set_userMessage "   " Example.assigned in
  let asked := set_userMessage " Who had the fries? " Example.assigned in
  isAscii (userMessage blank) = true
  /\ isAscii (userMessage asked) = true
  /\ handleChatMessage (Example.answering []) blank = blank
  /\ (handleChatMessage (Example.answering []) asked = asked -> False).
Proof.
  split; [reflexivity|]. split; [reflexivity|]. split.
  - apply (proj2 (handleChatMessage_ignored_iff_blank_or_busy
                    (Example.answering []) (set_userMessage "   " Example.assigned)
                    eq_refl)).
    left. reflexivity.
  - intros H.
    destruct (proj1 (handleChatMessage_ignored_iff_blank_or_busy
                       (Example.answering [])
                       (set_userMessage " Who had the fries? " Example.assigned)
                       eq_refl) H) as [E|E]; discriminate E.
Defined.

(** X9.  A chat message that is taken up adds exactly two entries to the
    transcript, the trimmed message of the user and one reply of the model,
    and empties the input field; tax, tip, application state and error
    signal stay as they are, whatever the interpreter answers. *)
Theorem handleChatMessage_appends_two_messages :
  forall (assignItems : Interpreter) (st : State) (response : Thrown + list Assignment),
    chatResponse assignItems st = Some response ->
    let st' := handleChatMessage assignItems st in
    chatHistory st' =
      chatHistory st ++ [mkMsg user (trim (userMessage st)); mkMsg model (replyText response)]
    /\ userMessage st' = EmptyString
    /\ tax st' = tax st /\ tip st' = tip st
    /\ appState st' = appState st /\ errorMessage st' = errorMessage st.
Proof.
  intros assignItems st response H st'. subst st'.
  apply handleChatMessage_settled in H as (_ & _ & ->).
  rewrite chatHistory_chatSettle.
  destruct (untouched_by_chatSettle response (chatStarted st)) as (-> & -> & -> & -> & ->).
  cbn. rewrite <- app_assoc. done.
Qed.

Lemma handleChatMessage_appends_two_messages_witness :
  let ask := set_userMessage "  Jane had the fries " Example.parsed in
  let batch := [mkAssignment "jane" "fries"] in
  chatResponse (Example.answering batch) ask = Some (inr batch)
  /\ chatHistory (handleChatMessage (Example.answering batch) ask) =
       chatHistory ask ++ [mkMsg user "Jane had the fries"; mkMsg model (replyText (inr batch))]
  /\ userMessage (handleChatMessage (Example.answering batch) ask) = EmptyString.
Proof.
  split; [vm_compute; reflexivity|].
  pose proof (handleChatMessage_appends_two_messages
                (Example.answering [mkAssignment "jane" "fries"])
                (set_userMessage "  Jane had the fries " Example.parsed)
                _ eq_refl) as (H1 & H2 & _).
  split; [exact H1|exact H2].
Defined.

(** ** Sessions keep the receipt *)

Lemma untouched_by_handleChatMessage assignItems st :
  tax (handleChatMessage assignItems st) = tax st
  /\ tip (handleChatMessage assignItems st) = tip st
  /\ appState (handleChatMessage assignItems st) = appState st
  /\ errorMessage (handleChatMessage assignItems st) = errorMessage st.
Proof.
  destruct (chatResponse_cases assignItems st) as [E|[response E]].
  - by rewrite handleChatMessage_ignored.
  - apply handleChatMessage_settled in E as (_ & _ & ->).
    destruct (untouched_by_chatSettle response (chatStarted st)) as (-> & -> & -> & -> & _).
    done.
Qed.

Lemma showsReceipt_inSession st :
  inSession st -> exists parsedData, showsReceipt parsedData st.
Proof.
  induction 1 as [d|txt st _ [d IH]|f st _ [d IH]|item p st _ [d IH]]; exists d.
  - unfold showsReceipt. simpl. rewrite fmap_imap. done.
  - exact IH.
  - destruct IH as (Hf & Ht & Hp & Ha & He).
    destruct (untouched_by_handleChatMessage f st) as (E1 & E2 & E3 & E4).
    unfold showsReceipt. by rewrite frame_handleChatMessage, E1, E2, E3, E4.
  - destruct IH as (Hf & Ht & Hp & Ha & He).
    unfold showsReceipt. by rewrite frame_unassignItem.
Qed.

Lemma session_ids st :
  inSession st -> id <$> receiptItems st = seq 0 (length (receiptItems st)).
Proof.
  intros H. destruct (showsReceipt_inSession st H) as (d & Hf & _).
  assert (Hlen : length (receiptItems st) = length (parsed_items d)).
  { apply (f_equal length) in Hf. by rewrite length_fmap, length_imap in Hf. }
  apply (f_equal (fmap (fun f : nat * string * Q => f.1.1))) in Hf.
  rewrite <- list_fmap_compose, fmap_imap in Hf.
  rewrite Hlen.
  transitivity (imap (fun (i : nat) (_ : string * Q) => i) (parsed_items d)).
  - exact Hf.
  - rewrite (imap_seq_0 (parsed_items d) (fun i : nat => i)). apply list_fmap_id.
Qed.

Lemma session_ids_NoDup st : inSession st -> NoDup (id <$> receiptItems st).
Proof. intros H. rewrite (session_ids st H). apply NoDup_seq. Qed.

Lemma sessionOf_inSession parsedData st : sessionOf parsedData st -> inSession st.
Proof. induction 1; by constructor. Qed.

Lemma showsReceipt_sessionOf parsedData st :
  sessionOf parsedData st -> showsReceipt parsedData st.
Proof.
  induction 1 as [|txt st _ IH|f st _ IH|item p st _ IH].
  - unfold showsReceipt. simpl. rewrite fmap_imap. done.
  - exact IH.
  - destruct IH as (Hf & Ht & Hp & Ha & He).
    destruct (untouched_by_handleChatMessage f st) as (E1 & E2 & E3 & E4).
    unfold showsReceipt. by rewrite frame_handleChatMessage, E1, E2, E3, E4.
  - destruct IH as (Hf & Ht & Hp & Ha & He).
    unfold showsReceipt. by rewrite frame_unassignItem.
Qed.

(** X1.  Throughout the session that an extraction opens, the receipt is
    the one that was extracted: the items keep the extracted names and
    prices in the extracted order, the identifier of an item is its
    position (so identifiers are distinct), tax and tip are the extracted
    ones, and the application stays in the splitting state with no error
    shown. *)
Theorem session_keeps_the_extracted_receipt :
  forall (parsedData : ParsedReceipt) (st : State),
    sessionOf parsedData st ->
    showsReceipt parsedData st
    /\ (forall i item, receiptItems st !! i = Some item ->
          id item = i
          /\ exists extracted, parsed_items parsedData !! i = Some extracted
               /\ name item = extracted.1 /\ price item = extracted.2)
    /\ length (receiptItems st) = length (parsed_items parsedData)
    /\ NoDup (id <$> receiptItems st).
Proof.
  intros parsedData st Hd.
  pose proof (sessionOf_inSession _ _ Hd) as H.
  pose proof (showsReceipt_sessionOf _ _ Hd) as Hshows.
  split; [exact Hshows|].
  split; [|split; [|by apply session_ids_NoDup]].
  - intros i item Hi. destruct Hshows as (Hf & _).
    apply (f_equal (fun l => l !! i)) in Hf.
    rewrite list_lookup_fmap, Hi, list_lookup_imap in Hf. simpl in Hf.
    destruct (parsed_items parsedData !! i) as [extracted|]; [|discriminate].
    simpl in Hf. unfold frame in Hf. injection Hf as E1 E2 E3.
    split; [done|]. by exists extracted.
  - destruct Hshows as (Hf & _). apply (f_equal length) in Hf.
    by rewrite length_fmap, length_imap in Hf.
Qed.

Lemma session_keeps_the_extracted_receipt_witness :
  sessionOf Example.receipt Example.janeRemoved
  /\ showsReceipt Example.receipt Example.janeRemoved
  /\ (forall i item, receiptItems Example.janeRemoved !! i = Some item ->
        id item = i
        /\ exists extracted, parsed_items Example.receipt !! i = Some extracted
             /\ name item = extracted.1 /\ price item = extracted.2)
  /\ length (receiptItems Example.janeRemoved) = length (parsed_items Example.receipt)
  /\ NoDup (id <$> receiptItems Example.janeRemoved).
Proof.
  assert (H : sessionOf Example.receipt Example.janeRemoved).
  { unfold Example.janeRemoved, Example.assigned, Example.chat, Example.parsed.
    repeat constructor. }
  split; [exact H|].
  exact (session_keeps_the_extracted_receipt Example.receipt Example.janeRemoved H).
Defined.

(** ** The person side of a batch *)

Lemma id_syncItem l i : id (syncItem l i) = id i.
Proof.
  unfold syncItem.
  destruct (List.find _ l) as [x|] eqn:E; simpl; [|done].
  apply find_some in E as [_ E]. by apply Nat.eqb_eq in E.
Qed.

Lemma heldIds_sync l person :
  heldIds (mkPerson (person_name person) (map (syncItem l) (items person)))
  = heldIds person.
Proof.
  unfold heldIds. simpl. change (@map ?A ?B) with (@fmap list _ A B).
  rewrite <- list_fmap_compose. apply list_fmap_ext.
  intros _ x _. apply id_syncItem.
Qed.

Lemma existsb_heldIds (u : ReceiptItem) (l : list ReceiptItem) :
  existsb (fun i => (id i =? id u)%nat) l = true <-> id u ∈ id <$> l.
Proof.
  rewrite existsb_exists, list_elem_of_fmap. split.
  - intros (x & Hx & E). apply Nat.eqb_eq in E. exists x.
    split; [done|by apply list_elem_of_In].
  - intros (x & E & Hx). exists x. split; [by apply list_elem_of_In|].
    by apply Nat.eqb_eq.
Qed.

Lemma assignPerson_grows l m a n p :
  m !! n = Some p ->
  exists p', assignPerson l m a !! n = Some p'
    /\ person_name p' = person_name p
    /\ items p `prefix_of` items p'.
Proof.
  intros Hn. unfold assignPerson.
  destruct (List.find _ l) as [u|]; [|by exists p].
  case_match; [|by exists p].
  destruct (decide (capitalize (personName a) = n)) as [<-|Hne].
  - rewrite Hn. simpl. eexists. rewrite lookup_insert_eq.
    split; [done|]. split; [done|]. by apply prefix_app_r.
  - exists p. by rewrite lookup_insert_ne.
Qed.

Lemma assignPeople_grows l assignments m n p :
  m !! n = Some p ->
  exists p', assignPeople assignments l m !! n = Some p'
    /\ person_name p' = person_name p
    /\ items p `prefix_of` items p'.
Proof.
  unfold assignPeople. revert m p.
  induction assignments as [|a rest IH]; intros m p Hn; simpl; [by exists p|].
  destruct (assignPerson_grows l m a n p Hn) as (p1 & H1 & Hname1 & Hpre1).
  destruct (IH _ _ H1) as (p2 & H2 & Hname2 & Hpre2).
  exists p2. split; [done|]. split; [congruence|]. by etrans.
Qed.

Lemma assignPerson_named l m a u :
  namedItem l a = Some u ->
  exists p, assignPerson l m a !! capitalize (personName a) = Some p
    /\ id u ∈ heldIds p.
Proof.
  unfold namedItem, assignPerson. intros ->.
  destruct (existsb _ _) eqn:E; simpl.
  - apply existsb_heldIds in E.
    destruct (m !! capitalize (personName a)) as [p|]; simpl in *.
    + by exists p.
    + by apply elem_of_nil in E.
  - eexists. rewrite lookup_insert_eq. split; [done|].
    unfold heldIds. simpl. rewrite fmap_app. apply elem_of_app. right. by left.
Qed.

Lemma assignPeople_named l assignments m a u :
  a ∈ assignments -> namedItem l a = Some u ->
  exists p, assignPeople assignments l m !! capitalize (personName a) = Some p
    /\ id u ∈ heldIds p.
Proof.
  unfold assignPeople. revert m.
  induction assignments as [|b rest IH]; intros m Hin Hu; [by apply elem_of_nil in Hin|].
  simpl. apply elem_of_cons in Hin as [->|Hin]; [|by apply IH].
  destruct (assignPerson_named l m b u Hu) as (p & Hp & Hid).
  destruct (assignPeople_grows l rest _ _ _ Hp) as (p' & Hp' & _ & Hpre).
  exists p'. split; [exact Hp'|].
  unfold heldIds in *. destruct Hpre as [k ->]. rewrite fmap_app.
  apply elem_of_app. by left.
Qed.

Lemma same_id_same_item (l : list ReceiptItem) x y :
  NoDup (id <$> l) -> x ∈ l -> y ∈ l -> id x = id y -> x = y.
Proof.
  induction l as [|z l IH]; intros Hnd Hx Hy E; [by apply elem_of_nil in Hx|].
  rewrite fmap_cons in Hnd. apply NoDup_cons in Hnd as [Hz Hnd].
  apply elem_of_cons in Hx as [->|Hx]; apply elem_of_cons in Hy as [->|Hy].
  - done.
  - exfalso. apply Hz. rewrite E. by apply list_elem_of_fmap_2.
  - exfalso. apply Hz. rewrite <- E. by apply list_elem_of_fmap_2.
  - by apply IH.
Qed.

Lemma people_reconcile assignments st :
  people (reconcile assignments st)
  = syncPeople (applyAssignments assignments (receiptItems st))
      (assignPeople assignments (applyAssignments assignments (receiptItems st))
                    (people st)).
Proof. reflexivity. Qed.

Lemma handleChatMessage_batch assignItems st batch :
  chatResponse assignItems st = Some (inr batch) -> batch <> [] ->
  receiptItems (handleChatMessage assignItems st)
    = applyAssignments batch (receiptItems st)
  /\ people (handleChatMessage assignItems st)
    = syncPeople (applyAssignments batch (receiptItems st))
        (assignPeople batch (applyAssignments batch (receiptItems st)) (people st)).
Proof.
  intros H Hne. apply handleChatMessage_settled in H as (_ & _ & ->).
  destruct batch as [|a l]; [done|]. split; reflexivity.
Qed.

(** X3.  In a session, when a batch is applied, every assignment of the
    batch whose item name is the name of a receipt item, up to letter case,
    leaves the person it names, under the capitalized name, in the map and
    holding the current record of the first item with that name. *)
Theorem batch_hands_named_item_to_person :
  forall (assignItems : Interpreter) (st : State) (batch : list Assignment),
    inSession st ->
    chatResponse assignItems st = Some (inr batch) ->
    batch <> [] ->
    let st' := handleChatMessage assignItems st in
    forall a u, a ∈ batch -> namedItem (receiptItems st') a = Some u ->
      exists person, people st' !! capitalize (personName a) = Some person
        /\ u ∈ items person.
Proof.
  intros assignItems st batch Hs H Hne st' a u Ha Hu. subst st'.
  destruct (handleChatMessage_batch _ _ _ H Hne) as [Hitems Hpeople].
  rewrite Hitems in Hu. rewrite Hpeople. clear Hitems Hpeople H.
  set (new := applyAssignments batch (receiptItems st)) in *.
  assert (Hnd : NoDup (id <$> new)).
  { unfold new. rewrite (ids_of_frames _ _ (frame_applyAssignments batch (receiptItems st))).
    by apply session_ids_NoDup. }
  destruct (assignPeople_named new batch (people st) a u Ha Hu) as (p & Hp & Hid).
  unfold syncPeople. rewrite lookup_fmap, Hp. simpl.
  eexists. split; [done|]. simpl.
  unfold heldIds in Hid. apply list_elem_of_fmap in Hid as (x & E & Hx).
  assert (Hun : u ∈ new).
  { unfold namedItem in Hu. apply find_some in Hu as [Hu _]. by apply list_elem_of_In. }
  assert (Hsx : syncItem new x ∈ new /\ id (syncItem new x) = id x).
  { apply syncItem_found. rewrite <- E. by apply list_elem_of_fmap_2. }
  replace u with (syncItem new x).
  - change (@map ?A ?B) with (@fmap list _ A B). by apply list_elem_of_fmap_2.
  - apply (same_id_same_item new); [done|apply Hsx|done|]. destruct Hsx as [_ ->]. done.
Qed.

Lemma batch_hands_named_item_to_person_witness :
  let ask := set_userMessage "Jane too" Example.assigned in
  let batch := [mkAssignment "jane" "BURGER"] in
  inSession ask
  /\ chatResponse (Example.answering batch) ask = Some (inr batch)
  /\ namedItem (receiptItems (handleChatMessage (Example.answering batch) ask))
               (mkAssignment "jane" "BURGER")
     = Some (Example.burger ["David"])
  /\ exists person,
       people (handleChatMessage (Example.answering batch) ask) !! "Jane" = Some person
       /\ Example.burger ["David"] ∈ items person.
Proof.
  assert (Hs : inSession (set_userMessage "Jane too" Example.assigned))
    by (constructor; apply example_states_inSession).
  split; [exact Hs|]. split; [vm_compute; reflexivity|].
  split; [vm_compute; reflexivity|].
  refine (batch_hands_named_item_to_person
            (Example.answering [mkAssignment "jane" "BURGER"])
            (set_userMessage "Jane too" Example.assigned)
            [mkAssignment "jane" "BURGER"] Hs _ _
            (mkAssignment "jane" "BURGER") (Example.burger ["David"]) _ _).
  - vm_compute. reflexivity.
  - discriminate.
  - by left.
  - vm_compute. reflexivity.
Defined.

(** ** What the person map keeps true *)

Lemma wellKept_assignPerson l m a :
  map_Forall wellKept m -> map_Forall wellKept (assignPerson l m a).
Proof.
  intros Hm. unfold assignPerson.
  destruct (List.find _ l) as [u|]; [|done].
  destruct (existsb _ _) eqn:E; simpl; [done|].
  apply map_Forall_insert_2; [|done].
  assert (Hcap : capitalize (capitalize (personName a)) = capitalize (personName a)).
  { destruct (personName a) as [|c r]; simpl; [done|]. by rewrite upper_ascii_idempotent. }
  assert (Hno : ~ id u ∈ id <$> items (default (mkPerson (capitalize (personName a)) [])
                                              (m !! capitalize (personName a)))).
  { intros Hin. apply existsb_heldIds in Hin. congruence. }
  destruct (m !! capitalize (personName a)) as [p|] eqn:Hp; simpl in *.
  - destruct (Hm _ _ Hp) as (Hname & _ & _ & Hnd).
    repeat split; [done|done|by destruct (items p)|].
    unfold heldIds in *. simpl. rewrite fmap_app. apply NoDup_app.
    split; [done|]. split; [|apply NoDup_singleton].
    intros x Hx Hx'. apply list_elem_of_singleton in Hx'. by subst.
  - repeat split; [done|done|]. unfold heldIds. simpl. apply NoDup_singleton.
Qed.

Lemma wellKept_assignPeople l assignments m :
  map_Forall wellKept m -> map_Forall wellKept (assignPeople assignments l m).
Proof.
  unfold assignPeople. revert m.
  induction assignments as [|a rest IH]; intros m Hm; simpl; [done|].
  by apply IH, wellKept_assignPerson.
Qed.

Lemma wellKept_syncPeople l m :
  map_Forall wellKept m -> map_Forall wellKept (syncPeople l m).
Proof.
  intros Hm. unfold syncPeople. apply map_Forall_fmap.
  intros n p Hp. destruct (Hm n p Hp) as (Hname & Hcap & Hne & Hnd).
  pose proof (heldIds_sync l p) as Hh.
  split; [done|]. split; [done|]. split; [simpl; by destruct (items p)|].
  by rewrite Hh.
Qed.

Lemma wellKept_handleChatMessage assignItems st :
  map_Forall wellKept (people st) ->
  map_Forall wellKept (people (handleChatMessage assignItems st)).
Proof.
  intros H. destruct (chatResponse_cases assignItems st) as [E|[response E]].
  - by rewrite handleChatMessage_ignored.
  - apply handleChatMessage_settled in E as (_ & _ & ->).
    rewrite people_chatSettle. destruct response as [e|[|a l]]; try done.
    by apply wellKept_syncPeople, wellKept_assignPeople.
Qed.

Lemma wellKept_unassignItem itemToUnassign personName st :
  map_Forall wellKept (people st) ->
  map_Forall wellKept (people (unassignItem itemToUnassign personName st)).
Proof.
  intros H. unfold unassignItem; simpl.
  destruct (people st !! personName) as [p|] eqn:Hp; [|done].
  destruct (Nat.eqb_spec (length (List.filter
              (fun i => negb (id i =? id itemToUnassign)%nat) (items p))) 0) as [E|E].
  - by apply map_Forall_delete.
  - apply map_Forall_insert_2; [|done].
    destruct (H _ _ Hp) as (Hname & Hcap & _ & Hnd).
    repeat split; [done|done|simpl; by destruct (List.filter _ _)|].
    unfold heldIds in *. simpl.
    rewrite (filter_bool_prop _ (fun i => id i <> id itemToUnassign))
      by (intros x; apply not_eqb_id).
    apply (sublist_NoDup _ (id <$> items p)); [done|].
    apply fmap_sublist, sublist_filter.
Qed.

Lemma wellKept_inSession st : inSession st -> map_Forall wellKept (people st).
Proof.
  induction 1 as [d|txt st _ IH|f st _ IH|item p st _ IH].
  - simpl. apply map_Forall_empty.
  - exact IH.
  - by apply wellKept_handleChatMessage.
  - by apply wellKept_unassignItem.
Qed.

(** X2.  Throughout a session every entry of the person map is filed under
    the name its person carries, that name is in capitalized form, and the
    person holds at least one item: nobody stays in the map with nothing. *)
Theorem session_people_are_named_and_hold_something :
  forall (st : State) (n : string) (person : Person),
    inSession st ->
    people st !! n = Some person ->
    person_name person = n /\ capitalize n = n /\ items person <> [].
Proof.
  intros st n person Hs Hn.
  destruct (wellKept_inSession st Hs n person Hn) as (H1 & H2 & H3 & _). done.
Qed.

Lemma session_people_are_named_and_hold_something_witness :
  inSession Example.janeRemoved
  /\ people Example.janeRemoved !! "John"
       = Some (mkPerson "John" [Example.fries ["Jane"; "John"]])
  /\ person_name (mkPerson "John" [Example.fries ["Jane"; "John"]]) = "John"
  /\ capitalize "John" = "John"
  /\ items (mkPerson "John" [Example.fries ["Jane"; "John"]]) <> [].
Proof.
  assert (Hs : inSession Example.janeRemoved) by apply example_states_inSession.
  assert (Hn : people Example.janeRemoved !! "John"
               = Some (mkPerson "John" [Example.fries ["Jane"; "John"]]))
    by (vm_compute; reflexivity).
  split; [exact Hs|]. split; [exact Hn|].
  exact (session_people_are_named_and_hold_something _ _ _ Hs Hn).
Defined.

(** X4.  Throughout a session nobody holds two records with the same
    identifier, and every identifier held is the identifier of a receipt
    item: the check before an item is added to a person, and the filter of
    an unassignment, keep the lists free of repeats. *)
Theorem session_people_hold_each_item_once :
  forall (st : State) (n : string) (person : Person),
    inSession st ->
    people st !! n = Some person ->
    NoDup (heldIds person)
    /\ forall i, i ∈ heldIds person -> i ∈ id <$> receiptItems st.
Proof.
  intros st n person Hs Hn. split.
  - by destruct (wellKept_inSession st Hs n person Hn) as (_ & _ & _ & H).
  - intros i Hi. unfold heldIds in Hi. apply list_elem_of_fmap in Hi as (x & -> & Hx).
    pose proof (inSession_idsOnReceipt st Hs) as Hids.
    unfold idsOnReceipt in Hids. rewrite holdings_spec in Hids.
    by apply (Hids n person x).
Qed.

Lemma session_people_hold_each_item_once_witness :
  inSession Example.burgerAgain
  /\ people Example.burgerAgain !! "Jane"
       = Some (mkPerson "Jane" [Example.burger ["David"]])
  /\ NoDup (heldIds (mkPerson "Jane" [Example.burger ["David"]]))
  /\ forall i, i ∈ heldIds (mkPerson "Jane" [Example.burger ["David"]]) ->
               i ∈ id <$> receiptItems Example.burgerAgain.
Proof.
  assert (Hs : inSession Example.burgerAgain) by apply example_states_inSession.
  assert (Hn : people Example.burgerAgain !! "Jane"
               = Some (mkPerson "Jane" [Example.burger ["David"]]))
    by (vm_compute; reflexivity).
  split; [exact Hs|]. split; [exact Hn|].
  exact (session_people_hold_each_item_once _ _ _ Hs Hn).
Defined.

(** X5.  In a session, once a non-empty batch has been applied, every
    record held by anybody is a record of the current receipt: the batch
    re-reads all of them, the ones left stale by an earlier unassignment
    included. *)
Theorem batch_resynchronises_every_held_record :
  forall (assignItems : Interpreter) (st : State) (batch : list Assignment),
    inSession st ->
    chatResponse assignItems st = Some (inr batch) ->
    batch <> [] ->
    let st' := handleChatMessage assignItems st in
    forall n person item,
      people st' !! n = Some person -> item ∈ items person -> item ∈ receiptItems st'.
Proof.
  intros assignItems st batch Hs H Hne st' n person item Hn Hi. subst st'.
  apply handleChatMessage_settled in H as (_ & _ & E). rewrite E in *.
  destruct batch as [|a l]; [done|].
  assert (Hids : idsOnReceipt (chatStarted st)).
  { pose proof (inSession_idsOnReceipt st Hs) as H0. revert H0.
    by apply idsOnReceipt_ext. }
  pose proof (reconcile_holds_current (a :: l) (chatStarted st) Hids) as Hc.
  rewrite holdings_spec in Hc. by apply (Hc n person item).
Qed.

Lemma batch_resynchronises_every_held_record_witness :
  let ask := set_userMessage "David had the burger" Example.janeRemoved in
  let batch := [mkAssignment "David" "Burger"] in
  inSession ask
  /\ chatResponse (Example.answering batch) ask = Some (inr batch)
  /\ people (handleChatMessage (Example.answering batch) ask) !! "John"
       = Some (mkPerson "John" [Example.fries ["John"]])
  /\ Example.fries ["John"] ∈ receiptItems (handleChatMessage (Example.answering batch) ask).
Proof.
  assert (Hs : inSession (set_userMessage "David had the burger" Example.janeRemoved))
    by (constructor; apply example_states_inSession).
  assert (Hn : people (handleChatMessage (Example.answering [mkAssignment "David" "Burger"])
                         (set_userMessage "David had the burger" Example.janeRemoved))
                 !! "John" = Some (mkPerson "John" [Example.fries ["John"]]))
    by (vm_compute; reflexivity).
  split; [exact Hs|]. split; [vm_compute; reflexivity|]. split; [exact Hn|].
  refine (batch_resynchronises_every_held_record
            (Example.answering [mkAssignment "David" "Burger"])
            (set_userMessage "David had the burger" Example.janeRemoved)
            [mkAssignment "David" "Burger"] Hs _ _ "John" _ _ Hn _).
  - vm_compute. reflexivity.
  - discriminate.
  - by left.
Defined.

(** ** What a chat message never takes away *)

Lemma syncPeople_lookup l m n :
  syncPeople l m !! n
  = (fun person => mkPerson (person_name person) (map (syncItem l) (items person)))
      <$> m !! n.
Proof. unfold syncPeople. apply lookup_fmap. Qed.

(** X6.  In a state where every identifier held by a person is one of the
    receipt, a chat message, whatever becomes of it, never removes a person
    from the map, never takes an item away from a person and never shortens
    an [assignedTo] list: the identifiers a person held are a prefix of the
    ones held afterwards, and the assignees of an item a prefix of its
    assignees afterwards; and every identifier held afterwards is again one
    of the receipt. *)
Theorem handleChatMessage_only_adds :
  forall (assignItems : Interpreter) (st : State),
    idsOnReceipt st ->
    let st' := handleChatMessage assignItems st in
    (forall n person, people st !! n = Some person ->
       exists person', people st' !! n = Some person'
         /\ person_name person' = person_name person
         /\ heldIds person `prefix_of` heldIds person')
    /\ (forall i item, receiptItems st !! i = Some item ->
          exists item', receiptItems st' !! i = Some item'
            /\ assignedTo item `prefix_of` assignedTo item')
    /\ idsOnReceipt st'.
Proof.
  intros assignItems st Hids st'. subst st'.
  cut ((forall n person, people st !! n = Some person ->
          exists person', people (handleChatMessage assignItems st) !! n = Some person'
            /\ person_name person' = person_name person
            /\ heldIds person `prefix_of` heldIds person')
       /\ (forall i item, receiptItems st !! i = Some item ->
             exists item', receiptItems (handleChatMessage assignItems st) !! i = Some item'
               /\ assignedTo item `prefix_of` assignedTo item')).
  { intros [H1 H2]. split; [exact H1|]. split; [exact H2|].
    by apply idsOnReceipt_handleChatMessage. }
  clear Hids.
  destruct (chatResponse_cases assignItems st) as [E|[response E]].
  { rewrite handleChatMessage_ignored by done. split.
    - intros n person Hn. by exists person.
    - intros i item Hi. by exists item. }
  apply handleChatMessage_settled in E as (_ & _ & ->).
  rewrite people_chatSettle, receiptItems_chatSettle.
  destruct response as [e|[|a l]].
  1,2: split; [intros n person Hn; by exists person|intros i item Hi; by exists item].
  change (people (chatStarted st)) with (people st).
  change (receiptItems (chatStarted st)) with (receiptItems st).
  split.
  - intros n person Hn. cbv zeta.
    destruct (assignPeople_grows (applyAssignments (a :: l) (receiptItems st))
                (a :: l) (people st) n person Hn) as (p' & Hp' & Hname & Hpre).
    rewrite syncPeople_lookup, Hp'. simpl. eexists. split; [done|].
    split; [done|]. rewrite heldIds_sync. unfold heldIds.
    destruct Hpre as [k ->]. rewrite fmap_app. by apply prefix_app_r.
  - intros i item Hi. unfold applyAssignments.
    change (@map ?A ?B) with (@fmap list _ A B).
    rewrite list_lookup_fmap, Hi. simpl. eexists. split; [done|].
    rewrite assignedTo_assignOne. by apply prefix_app_r.
Qed.

Lemma handleChatMessage_only_adds_witness :
  let ask := set_userMessage "David and Eve had the burger, David had the fries too"
               (Example.chat "David had the burger" [mkAssignment "David" "Burger"]
                             Example.parsed) in
  let batch := [mkAssignment "David" "Burger"; mkAssignment "eve" "burger";
                mkAssignment "David" "Fries"] in
  let st' := handleChatMessage (Example.answering batch) ask in
  idsOnReceipt ask
  /\ ((forall n person, people ask !! n = Some person ->
         exists person', people st' !! n = Some person'
           /\ person_name person' = person_name person
           /\ heldIds person `prefix_of` heldIds person')
      /\ (forall i item, receiptItems ask !! i = Some item ->
            exists item', receiptItems st' !! i = Some item'
              /\ assignedTo item `prefix_of` assignedTo item')
      /\ idsOnReceipt st')
  /\ heldIds <$> people ask !! "David" = Some [0%nat]
  /\ heldIds <$> people st' !! "David" = Some [0%nat; 1%nat]
  /\ assignedTo <$> receiptItems st' = [["David"]; ["David"]].
Proof.
  assert (H : idsOnReceipt
                (set_userMessage "David and Eve had the burger, David had the fries too"
                   (Example.chat "David had the burger" [mkAssignment "David" "Burger"]
                                 Example.parsed)))
    by (apply (bool_decide_unpack _); vm_compute; reflexivity).
  split; [exact H|]. split.
  - exact (handleChatMessage_only_adds
             (Example.answering
                [mkAssignment "David" "Burger"; mkAssignment "eve" "burger";
                 mkAssignment "David" "Fries"]) _ H).
  - split; [vm_compute; reflexivity|]. split; vm_compute; reflexivity.
Defined.

Lemma assignOne_unassigned assignments item :
  assignedTo (assignOne assignments item) = [] ->
  assignOne assignments item = item /\ assignedTo item = [].
Proof.
  unfold assignOne.
  destruct (List.filter (matchesItem item) assignments) as [|a l]; simpl; [done|].
  intros H. apply app_eq_nil in H as [_ H]. discriminate.
Qed.

(** X7.  The unassigned items after a chat message are among the
    unassigned items before it, in the same order and as the same records:
    a chat message can take items off that list and never puts one on. *)
Theorem handleChatMessage_shrinks_unassignedItems :
  forall (assignItems : Interpreter) (st : State),
    unassignedItems (handleChatMessage assignItems st) `sublist_of` unassignedItems st.
Proof.
  intros assignItems st. unfold unassignedItems.
  destruct (chatResponse_cases assignItems st) as [E|[response E]].
  { by rewrite handleChatMessage_ignored. }
  apply handleChatMessage_settled in E as (_ & _ & ->).
  rewrite receiptItems_chatSettle.
  destruct response as [e|[|a l]]; try done.
  change (receiptItems (chatStarted st)) with (receiptItems st).
  unfold applyAssignments.
  induction (receiptItems st) as [|x items0 IH]; simpl; [done|].
  destruct (length (assignedTo (assignOne (a :: l) x)) =? 0)%nat eqn:E.
  - apply Nat.eqb_eq, length_zero_iff_nil in E.
    destruct (assignOne_unassigned _ _ E) as [-> Hx].
    rewrite Hx. simpl. by apply sublist_skip.
  - destruct (length (assignedTo x) =? 0)%nat; [by apply sublist_cons|done].
Qed.

Lemma filter_nothing {A} (f : A -> bool) (l : list A) :
  (forall x, x ∈ l -> f x = false) -> List.filter f l = [].
Proof.
  induction l as [|x l IH]; intros H; simpl; [done|].
  rewrite (H x) by (by left). apply IH. intros y Hy. apply H. by right.
Qed.

Lemma namedItem_None l a :
  namedItem l a = None ->
  forall x, x ∈ l -> matchesItem x a = false.
Proof.
  unfold namedItem. intros H x Hx.
  pose proof (find_none _ _ H x (proj1 (list_elem_of_In _ _) Hx)) as E.
  simpl in E. unfold matchesItem.
  rewrite String.eqb_sym, E. done.
Qed.

(** X17.  In a state where every identifier held by a person is one of
    the receipt, a batch in which no assignment names an item of the receipt
    changes no item, adds no person and gives nobody an item; the reply in
    the transcript still lists every assignment of the batch as assigned. *)
Theorem batch_of_unknown_items_assigns_nothing :
  forall (assignItems : Interpreter) (st : State) (batch : list Assignment),
    idsOnReceipt st ->
    chatResponse assignItems st = Some (inr batch) ->
    batch <> [] ->
    (forall a, a ∈ batch -> namedItem (receiptItems st) a = None) ->
    let st' := handleChatMessage assignItems st in
    receiptItems st' = receiptItems st
    /\ (forall n, heldIds <$> people st' !! n = heldIds <$> people st !! n)
    /\ last (chatHistory st') = Some (mkMsg model (responseText batch)).
Proof.
  intros assignItems st batch _ H Hne Hnone st'. subst st'.
  destruct (handleChatMessage_batch _ _ _ H Hne) as [Hitems Hpeople].
  assert (Hsame : applyAssignments batch (receiptItems st) = receiptItems st).
  { unfold applyAssignments. change (@map ?A ?B) with (@fmap list _ A B).
    rewrite <- (list_fmap_id (receiptItems st)) at 2.
    apply list_fmap_ext. intros i x Hx. apply list_elem_of_lookup_2 in Hx.
    unfold assignOne. replace (List.filter (matchesItem x) batch) with (@nil Assignment); [done|].
    symmetry. apply filter_nothing. intros b Hb.
    by rewrite (namedItem_None _ _ (Hnone b Hb) x Hx). }
  rewrite Hsame in Hitems, Hpeople.
  assert (Hkeep : assignPeople batch (receiptItems st) (people st) = people st).
  { unfold assignPeople. clear -Hnone. revert Hnone. generalize (people st).
    induction batch as [|b rest IH]; intros m Hnone; simpl; [done|].
    assert (Hb : assignPerson (receiptItems st) m b = m).
    { unfold assignPerson. pose proof (Hnone b (list_elem_of_here _ _)) as E.
      unfold namedItem in E. by rewrite E. }
    rewrite Hb. apply IH. intros a Ha. apply Hnone. by right. }
  rewrite Hkeep in Hpeople.
  split; [exact Hitems|]. split.
  - intros n. rewrite Hpeople, syncPeople_lookup.
    destruct (people st !! n) as [p|]; simpl; [|done]. by rewrite heldIds_sync.
  - apply handleChatMessage_settled in H as (_ & _ & ->).
    rewrite chatHistory_chatSettle, last_snoc. by destruct batch.
Qed.

Lemma batch_of_unknown_items_assigns_nothing_witness :
  let ask := set_userMessage "Ann had the soup" Example.assigned in
  let batch := [mkAssignment "Ann" "Soup"] in
  idsOnReceipt ask
  /\ chatResponse (Example.answering batch) ask = Some (inr batch)
  /\ receiptItems (handleChatMessage (Example.answering batch) ask) = receiptItems ask
  /\ people (handleChatMessage (Example.answering batch) ask) !! "Ann" = None
  /\ last (chatHistory (handleChatMessage (Example.answering batch) ask))
     = Some (mkMsg model (responseText batch)).
Proof.
  assert (H : idsOnReceipt (set_userMessage "Ann had the soup" Example.assigned))
    by (apply (bool_decide_unpack _); vm_compute; reflexivity).
  split; [exact H|]. split; [vm_compute; reflexivity|].
  destruct (batch_of_unknown_items_assigns_nothing
              (Example.answering [mkAssignment "Ann" "Soup"])
              (set_userMessage "Ann had the soup" Example.assigned)
              [mkAssignment "Ann" "Soup"] H) as (H1 & H2 & H3).
  - vm_compute. reflexivity.
  - discriminate.
  - intros a Ha. apply list_elem_of_singleton in Ha as ->. vm_compute. reflexivity.
  - split; [exact H1|]. split; [|exact H3].
    specialize (H2 "Ann").
    destruct (people (handleChatMessage _ _) !! "Ann"); [discriminate|reflexivity].
Defined.

(** ** Unassigning twice *)

Lemma filter_idempotent {A} (f : A -> bool) (l : list A) :
  List.filter f (List.filter f l) = List.filter f l.
Proof.
  induction l as [|x l IH]; simpl; [done|].
  destruct (f x) eqn:E; simpl; [|done]. by rewrite E, IH.
Qed.

Lemma State_eq (s1 s2 : State) :
  appState s1 = appState s2 -> errorMessage s1 = errorMessage s2 ->
  receiptItems s1 = receiptItems s2 -> tax s1 = tax s2 -> tip s1 = tip s2 ->
  people s1 = people s2 -> chatHistory s1 = chatHistory s2 ->
  userMessage s1 = userMessage s2 -> isProcessingChat s1 = isProcessingChat s2 ->
  s1 = s2.
Proof. destruct s1, s2; simpl; intros; by subst. Qed.

Lemma receiptItems_unassign_twice it p st :
  receiptItems (unassignItem it p (unassignItem it p st))
  = receiptItems (unassignItem it p st).
Proof.
  unfold unassignItem; simpl. rewrite map_map. apply map_ext.
  intros item. destruct (id item =? id it)%nat eqn:E; simpl; rewrite E; [|done].
  by rewrite filter_idempotent.
Qed.

Lemma people_unassign_twice it p st :
  people (unassignItem it p (unassignItem it p st)) = people (unassignItem it p st).
Proof.
  unfold unassignItem; simpl.
  destruct (people st !! p) as [person|] eqn:Hp; [|by rewrite Hp].
  destruct (length (List.filter _ (items person)) =? 0)%nat eqn:E.
  - by rewrite lookup_delete_eq.
  - rewrite lookup_insert_eq. simpl. rewrite filter_idempotent, E.
    by rewrite insert_insert_eq.
Qed.

(** X10.  Unassigning is idempotent: taking the same person off the same
    item a second time changes nothing at all. *)
Theorem unassignItem_idempotent :
  forall (itemToUnassign : ReceiptItem) (personName : string) (st : State),
    unassignItem itemToUnassign personName (unassignItem itemToUnassign personName st)
    = unassignItem itemToUnassign personName st.
Proof.
  intros it p st. apply State_eq; try reflexivity.
  - apply receiptItems_unassign_twice.
  - apply people_unassign_twice.
Qed.

(** ** The whole bill *)

Lemma personShare_total totalSubtotal overallTax overallTip person :
  ~ (totalSubtotal == 0)%Q ->
  Forall (fun item => assignedTo item <> []) (items person) ->
  num_eq (total_of (personShare totalSubtotal overallTax overallTip person))
         (Finite ((1 + overallTax / totalSubtotal + overallTip / totalSubtotal)
                  * sumQ shareQ (items person))).
Proof.
  intros Hnz Hall.
  pose proof (personSubtotal_sumShares totalSubtotal overallTax overallTip person) as Hs.
  rewrite sumShares_finite in Hs by done.
  apply num_eq_Finite in Hs as (s & Hs & Hq).
  unfold personShare in *. simpl in *. rewrite Hs. simpl.
  destruct (Qeq_bool totalSubtotal 0) eqn:E; [by apply Qeq_bool_iff in E|].
  simpl. rewrite <- Hq. field. done.
Qed.

Lemma totals_fold totalSubtotal overallTax overallTip (L : list (string * Person)) :
  ~ (totalSubtotal == 0)%Q ->
  Forall (fun np => Forall (fun item => assignedTo item <> []) (items np.2)) L ->
  num_eq
    (foldr (uncurry (fun (_ : string) sh acc => num_add (total_of sh) acc)) (Finite 0)
           (prod_map Datatypes.id (personShare totalSubtotal overallTax overallTip) <$> L))
    (Finite ((1 + overallTax / totalSubtotal + overallTip / totalSubtotal)
             * sumQ (fun np => sumQ shareQ (items np.2)) L)).
Proof.
  intros Hnz. induction 1 as [|[n p] L Hp _ IH]; simpl; [ring|].
  eapply num_eq_trans.
  - apply num_add_proper; [by apply personShare_total|exact IH].
  - simpl. ring.
Qed.

Lemma totals_foldIn {N} {A : Arithmetic N} (t x y : N) totalSubtotal overallTax overallTip
    (L : list (string * Person)) :
  Forall (fun np => num_eq (valueOf (share_total (personShareIn t x y np.2)))
                           (total_of (personShare totalSubtotal overallTax overallTip np.2)))
         L ->
  num_eq
    (foldr (uncurry (fun (_ : string) sh acc => num_add (valueOf (share_total sh)) acc))
           (Finite 0)
           (prod_map Datatypes.id (personShareIn t x y) <$> L))
    (foldr (uncurry (fun (_ : string) sh acc => num_add (total_of sh) acc)) (Finite 0)
           (prod_map Datatypes.id (personShare totalSubtotal overallTax overallTip) <$> L)).
Proof.
  induction 1 as [|[n p] L Hp _ IH]; simpl; [reflexivity|].
  by apply num_add_proper.
Qed.

(** X12.  Whatever the arithmetic of numbers is, binary64 included: in a
    state where items and people describe the same assignment, no price is
    negative, the subtotal is not zero, nobody is named __proto__ and the
    totals are computed without rounding error, the totals of the people
    add up to the assigned part of the receipt with its proportional part of
    tax and tip; when no priced item is left unassigned that is the whole
    bill, subtotal + tax + tip. *)
Theorem totals_cover_the_bill :
  forall (N : Type) (A : Arithmetic N) (st : State),
    consistent st ->
    Forall (fun item => (0 <= price item)%Q) (receiptItems st) ->
    ~ (subtotal st == 0)%Q ->
    people st !! "__proto__" = None ->
    totalsRoundingFree st ->
    exists q, peopleTotalsIn st = Finite q
      /\ (q == (1 + tax st / subtotal st + tip st / subtotal st)
               * sumQ assignedPrice (receiptItems st))%Q
      /\ (Forall (fun item => assignedTo item = [] -> (price item == 0)%Q)
                 (receiptItems st) ->
          (q == subtotal st + tax st + tip st)%Q).
Proof.
  intros N A st Hc Hpos Hnz Hproto (Hzero & Hexact).
  assert (Hfold : num_eq (peopleTotalsIn st)
            (Finite ((1 + tax st / subtotal st + tip st / subtotal st)
                     * sumQ assignedPrice (receiptItems st)))).
  { unfold peopleTotalsIn, billSummaryIn. rewrite Hzero.
    destruct (Qeq_bool (subtotal st) 0) eqn:E; [by apply Qeq_bool_iff in E|].
    rewrite ownProperties_id by (by rewrite lookup_fmap, Hproto).
    rewrite map_fold_foldr, map_to_list_fmap.
    eapply num_eq_trans.
    { apply (totals_foldIn _ _ _ (subtotal st) (tax st) (tip st)).
      apply Forall_forall. intros [n person] Hin.
      apply elem_of_map_to_list in Hin. apply (Hexact _ _ Hin). }
    eapply num_eq_trans;
      [apply totals_fold; [done|by apply consistent_held_assigned]|].
    simpl. by rewrite shares_double_count. }
  apply num_eq_Finite in Hfold as (q & Hq & Heq).
  exists q. split; [exact Hq|]. split; [exact Heq|].
  intros Hfree. rewrite Heq.
  assert (Hsum : (sumQ assignedPrice (receiptItems st) == subtotal st)%Q).
  { rewrite subtotal_sumQ. apply sumQ_ext. intros x Hx. unfold assignedPrice.
    rewrite Forall_forall in Hfree.
    case_decide as Hnil; [|reflexivity]. symmetry. by apply Hfree. }
  rewrite Hsum. field. done.
Qed.

Lemma totals_cover_the_bill_witness :
  consistent Example.evenSplit
  /\ totalsRoundingFree (N := float) Example.evenSplit
  /\ exists q, peopleTotalsIn (N := float) Example.evenSplit = Finite q
       /\ (q == subtotal Example.evenSplit + tax Example.evenSplit
                + tip Example.evenSplit)%Q
       /\ (q == 22)%Q.
Proof.
  assert (Hc : consistent Example.evenSplit)
    by (apply (bool_decide_unpack _); vm_compute; reflexivity).
  assert (Hr : totalsRoundingFree (N := float) Example.evenSplit)
    by (apply (bool_decide_unpack _); vm_compute; reflexivity).
  split; [exact Hc|]. split; [exact Hr|].
  destruct (totals_cover_the_bill float binary64 Example.evenSplit Hc)
    as (q & Hq & _ & Hall).
  - apply (bool_decide_unpack _). vm_compute. reflexivity.
  - vm_compute. discriminate.
  - vm_compute. reflexivity.
  - exact Hr.
  - exists q. split; [exact Hq|].
    assert (E : (q == subtotal Example.evenSplit + tax Example.evenSplit
                      + tip Example.evenSplit)%Q).
    { apply Hall. repeat constructor; discriminate. }
    split; [exact E|]. rewrite E. vm_compute. reflexivity.
Defined.

(** Rounding shows in the totals of the example of the specification: in
    binary64 the three totals add up to a little less than the 17 of the
    bill. *)
Lemma rounding_in_the_totals :
  (totalsRoundingFree (N := float) Example.assigned -> False)
  /\ exists q, peopleTotalsIn (N := float) Example.assigned = Finite q
       /\ ~ (q == 17)%Q.
Proof.
  split; [apply (bool_decide_eq_false_1 _); by vm_compute|].
  eexists. split; [by vm_compute|]. by vm_compute.
Qed.

(** ** Uploading a file *)

Lemma handleError_fields message st :
  appState (handleError message st) = error
  /\ errorMessage (handleError message st) = Some message
  /\ receiptItems (handleError message st) = receiptItems st
  /\ tax (handleError message st) = tax st
  /\ tip (handleError message st) = tip st
  /\ people (handleError message st) = people st
  /\ chatHistory (handleError message st) = chatHistory st.
Proof. repeat split. Qed.

Lemma filter_fresh_items {A} (g : nat -> A -> ReceiptItem) (l : list A) :
  (forall i x, assignedTo (g i x) = []) ->
  List.filter (fun item => (length (assignedTo item) =? 0)%nat) (imap g l) = imap g l.
Proof.
  revert g. induction l as [|x l IH]; intros g Hg; [done|].
  simpl. rewrite Hg. simpl. f_equal. apply IH. intros i y. apply Hg.
Qed.

(** X14.  What an upload leaves behind.  Without a file the state is as it
    was.  With a file the handler ends in the error state or in the
    splitting state, never in the parsing state.  It ends in the error state
    with a message set and with items, tax, tip and transcript untouched; a
    file whose type does not start with image/ is refused with its own
    message without the parser being consulted.  It ends in the splitting
    state only when the file was read and parsed, and then every extracted
    item is on the receipt, unassigned, in order and numbered by position.
    In no case is the person map cleared or changed. *)
Theorem onFileSelected_outcomes :
  forall (parseReceipt : ReceiptParser) (file : SelectedFile)
         (others : list SelectedFile) (st : State),
    let st' := onFileSelected parseReceipt (file :: others) st in
    onFileSelected parseReceipt [] st = st
    /\ (appState st' = error \/ appState st' = splitting)
    /\ people st' = people st
    /\ (String.prefix "image/" (file_type file) = false ->
        st' = handleError "Please upload an image file." st)
    /\ (appState st' = error ->
        (exists message, errorMessage st' = Some message)
        /\ receiptItems st' = receiptItems st
        /\ tax st' = tax st /\ tip st' = tip st
        /\ chatHistory st' = chatHistory st)
    /\ (appState st' = splitting ->
        exists dataUrl parsedData,
          file_dataUrl file = Some dataUrl
          /\ parseReceipt (stripDataUrlPrefix dataUrl) = inr parsedData
          /\ receiptItems st' =
               imap (fun index item => mkItem index item.1 item.2 [])
                    (parsed_items parsedData)
          /\ unassignedItems st' = receiptItems st'
          /\ tax st' = parsed_tax parsedData /\ tip st' = parsed_tip parsedData
          /\ errorMessage st' = None
          /\ chatHistory st' = [mkMsg system receiptParsedText]).
Proof.
  intros parseReceipt file others st st'. subst st'.
  split; [reflexivity|]. unfold onFileSelected, fileToBase64.
  destruct (String.prefix "image/" (file_type file)) eqn:Himg; simpl.
  2: { split; [by left|]. split; [done|]. split; [done|].
       split; [intros _; repeat split; by eexists|discriminate]. }
  destruct (file_dataUrl file) as [dataUrl|] eqn:Hread.
  2: { split; [by left|]. split; [done|]. split; [done|].
       split; [intros _; repeat split; by eexists|discriminate]. }
  destruct (parseReceipt (stripDataUrlPrefix dataUrl)) as [e|d] eqn:Hparse.
  { split; [by left|]. split; [done|]. split; [done|].
    split; [intros _; repeat split; by eexists|discriminate]. }
  split; [by right|]. split; [done|]. split; [done|].
  split; [discriminate|]. intros _. exists dataUrl, d.
  split; [done|]. split; [done|]. split; [done|].
  split; [|done]. unfold unassignedItems. simpl.
  by apply filter_fresh_items.
Qed.

(** ** The component on top of the service *)

(** X16.  With the service in place, and the component's parser settling
    as the service does: a file that is not an image is refused with its own
    message; a file that cannot be read gives the message for a thrown value
    that is no [Error]; when the model's call throws, or parsing its answer
    throws, the user sees the service's one message whatever was thrown;
    when the trimmed answer parses to a receipt, that receipt is installed
    and the application is splitting.  Nothing is said of an answer that
    parses to anything else. *)
Theorem upload_with_service_outcomes :
  forall (generateContent : string -> Thrown + string)
         (jsonParse : string -> Parse ParsedReceipt)
         (parseReceipt : ReceiptParser)
         (file : SelectedFile) (others : list SelectedFile) (st : State),
    answersAs parseReceipt (parseReceiptService generateContent jsonParse) ->
    let st' := onFileSelected parseReceipt (file :: others) st in
    (String.prefix "image/" (file_type file) = false ->
       st' = handleError "Please upload an image file." st)
    /\ (String.prefix "image/" (file_type file) = true ->
        file_dataUrl file = None ->
        appState st' = error
        /\ errorMessage st' = Some "An unknown error occurred.")
    /\ (forall dataUrl,
          String.prefix "image/" (file_type file) = true ->
          file_dataUrl file = Some dataUrl ->
          (forall e, generateContent (stripDataUrlPrefix dataUrl) = inl e ->
             appState st' = error /\ errorMessage st' = Some failedToParse)
          /\ (forall text,
                generateContent (stripDataUrlPrefix dataUrl) = inr text ->
                isAscii text = true ->
                (forall e, jsonParse (trim text) = parseThrows e ->
                   appState st' = error /\ errorMessage st' = Some failedToParse)
                /\ (forall parsedData, jsonParse (trim text) = parsesTo parsedData ->
                      st' = receiptParsed parsedData st
                      /\ appState st' = splitting))).
Proof.
  intros generateContent jsonParse parseReceipt file others st Hservice st'. subst st'.
  unfold onFileSelected, fileToBase64.
  split; [by intros ->|]. split.
  - intros -> ->. done.
  - intros dataUrl -> ->. simpl.
    pose proof (Hservice (stripDataUrlPrefix dataUrl)) as Hs.
    unfold parseReceiptService in Hs. split.
    + intros e He. rewrite He in Hs. by rewrite (Hs _ eq_refl).
    + intros text Ht _. rewrite Ht in Hs. split.
      * intros e He. rewrite He in Hs. by rewrite (Hs _ eq_refl).
      * intros parsedData Hp. rewrite Hp in Hs. by rewrite (Hs _ eq_refl).
Qed.

Lemma upload_with_service_outcomes_witness :
  let answer := fun (_ : string) => @inr Thrown string " receipt " in
  let parse := fun text : string =>
                 if String.eqb text "receipt" then parsesTo Example.receipt
                 else parsesToOther in
  let parser : ReceiptParser := fun _ => inr Example.receipt in
  let photo := mkFile "image/jpeg" (Some "data:image/jpeg;base64,QUJD") in
  answersAs parser (parseReceiptService answer parse)
  /\ onFileSelected parser [photo] initialState = Example.parsed
  /\ appState (onFileSelected parser [photo] initialState) = splitting.
Proof.
  assert (H : answersAs (fun _ => inr Example.receipt)
                (parseReceiptService
                   (fun _ => inr " receipt ")
                   (fun text => if String.eqb text "receipt"
                                then parsesTo Example.receipt else parsesToOther))).
  { intros data outcome E. vm_compute in E. injection E as <-. reflexivity. }
  split; [exact H|].
  destruct (upload_with_service_outcomes _ _ _
              (mkFile "image/jpeg" (Some "data:image/jpeg;base64,QUJD")) []
              initialState H) as (_ & _ & H3).
  destruct (H3 "data:image/jpeg;base64,QUJD" eq_refl eq_refl) as (_ & H4).
  destruct (H4 " receipt " eq_refl eq_refl) as (_ & H5).
  exact (H5 Example.receipt eq_refl).
Defined.

(** X18.  With the service in place, a chat message that is taken up is
    answered by a batch or by the service's one error: whatever the model's
    call or the parsing of its answer throws, the transcript ends with the
    request to rephrase and items and people are untouched; an answer
    without assignments counts as the empty batch. *)
Theorem chat_with_service_outcomes :
  forall (generateContent : string -> list (string * Q) -> list string -> Thrown + string)
         (jsonParse : string -> Thrown + option (list Assignment))
         (st : State) (response : Thrown + list Assignment),
    chatResponse (assignItemsService generateContent jsonParse) st = Some response ->
    let st' := handleChatMessage (assignItemsService generateContent jsonParse) st in
    let asked := generateContent (trim (userMessage st))
                   (map (fun i => (name i, price i)) (unassignedItems st))
                   (map_to_list (people st)).*1 in
    ((exists batch, response = inr batch)
     \/ (response = inl (ErrorObject troubleUnderstanding)
         /\ last (chatHistory st') = Some (mkMsg model troubleUnderstanding)
         /\ receiptItems st' = receiptItems st
         /\ people st' = people st))
    /\ ((exists e, asked = inl e) -> response = inl (ErrorObject troubleUnderstanding))
    /\ (forall text, asked = inr text ->
          (forall e, jsonParse (trim text) = inl e ->
                     response = inl (ErrorObject troubleUnderstanding))
          /\ (forall result, jsonParse (trim text) = inr result ->
                             response = inr (default [] result))).
Proof.
  intros generateContent jsonParse st response H st' asked. subst st' asked.
  pose proof H as H0. apply handleChatMessage_settled in H0 as (_ & _ & Hst).
  unfold chatResponse in H.
  destruct (chatBegin st) as [[m s1]|] eqn:Hb; [|done].
  apply chatBegin_Some in Hb as (_ & _ & -> & ->). injection H as H.
  change (unassignedItems (chatStarted st)) with (unassignedItems st) in H.
  change (people (chatStarted st)) with (people st) in H.
  unfold assignItemsService in H.
  destruct (generateContent _ _ _) as [e|text] eqn:Hg.
  - subst response. split; [|split].
    + right. split; [done|]. rewrite Hst, chatHistory_chatSettle, last_snoc. done.
    + done.
    + intros text [=].
  - destruct (jsonParse (trim text)) as [e|result] eqn:Hp; subst response.
    + split; [|split].
      * right. split; [done|]. rewrite Hst, chatHistory_chatSettle, last_snoc. done.
      * intros [e' [=]].
      * intros text' [= <-]. split; [done|]. intros r Hr. congruence.
    + split; [|split].
      * left. by eexists.
      * intros [e' [=]].
      * intros text' [= <-]. split; [intros e He; congruence|].
        intros r Hr. congruence.
Qed.

Lemma chat_with_service_outcomes_witness :
  let offline := fun (_ : string) (_ : list (string * Q)) (_ : list string) =>
                   @inl Thrown string OtherValue in
  let noParse := fun (_ : string) => @inr Thrown (option (list Assignment)) None in
  let ask := set_userMessage "Jane had the fries" Example.parsed in
  chatResponse (assignItemsService offline noParse) ask
    = Some (inl (ErrorObject troubleUnderstanding))
  /\ last (chatHistory (handleChatMessage (assignItemsService offline noParse) ask))
     = Some (mkMsg model troubleUnderstanding)
  /\ receiptItems (handleChatMessage (assignItemsService offline noParse) ask)
     = receiptItems ask.
Proof.
  split; [vm_compute; reflexivity|].
  destruct (chat_with_service_outcomes
              (fun _ _ _ => inl OtherValue) (fun _ => inr None)
              (set_userMessage "Jane had the fries" Example.parsed)
              (inl (ErrorObject troubleUnderstanding)) eq_refl)
    as ([[batch Hb]|(_ & H1 & H2 & _)] & _).
  - discriminate.
  - split; [exact H1|exact H2].
Defined.

(** ** The summary's names *)

Lemma summaryKeysIn_spec {N} {A : Arithmetic N} (st : State) :
  summaryKeysIn st =
    if isZeroN (subtotalIn st) then ∅ else dom (people st) ∖ {["__proto__"]}.
Proof.
  unfold summaryKeysIn, billSummaryIn.
  destruct (isZeroN (subtotalIn st)); [apply dom_empty_L|].
  unfold ownProperties. apply dom_filter_L. intros n.
  rewrite elem_of_difference, elem_of_dom, not_elem_of_singleton. simpl.
  split.
  - intros [[person Hp] Hn]. eexists. by rewrite lookup_fmap, Hp.
  - intros (sh & Hsh & Hn). split; [|done].
    rewrite lookup_fmap in Hsh. destruct (people st !! n); [by eexists|done].
Qed.

(** X19.  Whatever the arithmetic of numbers is: the names under which the
    summary is displayed are none when the computed subtotal is zero, and
    otherwise the names of the person map, except the name __proto__, which
    is never among them. *)
Theorem summaryKeys_are_the_people :
  forall (N : Type) (A : Arithmetic N) (st : State),
    summaryKeysIn st =
      (if isZeroN (subtotalIn st) then ∅ else dom (people st) ∖ {["__proto__"]})
    /\ "__proto__" ∉ summaryKeysIn st.
Proof.
  intros N A st. pose proof (summaryKeysIn_spec st) as E.
  split; [exact E|]. rewrite E.
  destruct (isZeroN (subtotalIn st)); [apply not_elem_of_empty|].
  rewrite elem_of_difference, elem_of_singleton. intros [_ H]. by apply H.
Qed.

(** In binary64, on the example of the specification and on the session
    with a person named __proto__. *)
Lemma summaryKeys_examples :
  summaryKeysIn (N := float) Example.assigned = {["David"; "Jane"; "John"]}
  /\ dom (people Example.protoNamed) = {["__proto__"]}
  /\ summaryKeysIn (N := float) Example.protoNamed = ∅.
Proof.
  split; [|split].
  - rewrite summaryKeysIn_spec.
    replace (isZeroN (subtotalIn Example.assigned : float)) with false by (by vm_compute).
    replace (people Example.assigned)
      with (<["David" := mkPerson "David" [Example.burger ["David"]]]>
              (<["Jane" := mkPerson "Jane" [Example.fries ["Jane"; "John"]]]>
                 ({["John" := mkPerson "John" [Example.fries ["Jane"; "John"]]]}
                    : gmap string Person)))
      by (by vm_compute).
    rewrite !dom_insert_L, dom_singleton_L. set_solver.
  - replace (people Example.protoNamed)
      with ({["__proto__" := mkPerson "__proto__" [Example.burger ["__proto__"]]]}
              : gmap string Person)
      by (by vm_compute).
    apply dom_singleton_L.
  - rewrite summaryKeysIn_spec.
    replace (isZeroN (subtotalIn Example.protoNamed : float)) with false by (by vm_compute).
    replace (people Example.protoNamed)
      with ({["__proto__" := mkPerson "__proto__" [Example.burger ["__proto__"]]]}
              : gmap string Person)
      by (by vm_compute).
    rewrite dom_singleton_L. set_solver.
Qed.

(** ** Assigning and taking back *)

Lemma syncItem_self l x : NoDup (id <$> l) -> x ∈ l -> syncItem l x = x.
Proof.
  intros Hnd Hx.
  destruct (syncItem_found l x (list_elem_of_fmap_2 id l x Hx)) as (_ & Hin & Hid).
  by apply (same_id_same_item l).
Qed.

Lemma item_eta x : assignedTo x = [] -> mkItem (id x) (name x) (price x) [] = x.
Proof. destruct x; simpl; by intros ->. Qed.

Lemma person_eta p : mkPerson (person_name p) (items p) = p.
Proof. by destruct p. Qed.

(** X11.  Assigning one unassigned item to a new person and taking it back
    is a round trip.  In a state with distinct identifiers where everybody
    holds current records that name them, let a one-assignment batch name an
    unassigned item that is the only one of its name, for a person not yet
    in the map: the item gets that one assignee and the person that one
    item, and unassigning the pair restores the item list and the person
    map exactly. *)
Theorem assign_then_unassign_restores :
  forall (assignItems : Interpreter) (st : State) (a : Assignment) (x : ReceiptItem),
    chatResponse assignItems st = Some (inr [a]) ->
    NoDup (id <$> receiptItems st) ->
    inSync st ->
    x ∈ receiptItems st ->
    assignedTo x = [] ->
    toLowerCase (itemName a) = toLowerCase (name x) ->
    (forall y, y ∈ receiptItems st ->
               toLowerCase (itemName a) = toLowerCase (name y) -> y = x) ->
    people st !! capitalize (personName a) = None ->
    let who := capitalize (personName a) in
    let x' := mkItem (id x) (name x) (price x) [who] in
    let st1 := handleChatMessage assignItems st in
    x' ∈ receiptItems st1
    /\ people st1 = <[who := mkPerson who [x']]> (people st)
    /\ receiptItems (unassignItem x' who st1) = receiptItems st
    /\ people (unassignItem x' who st1) = people st.
Proof.
  intros assignItems st a x H Hnd Hsync Hx Hnil Hname Honly Hnew who x' st1.
  assert (Hne : [a] <> []) by discriminate.
  destruct (handleChatMessage_batch _ _ _ H Hne) as [Hitems Hpeople].
  fold st1 in Hitems, Hpeople.
  set (new := applyAssignments [a] (receiptItems st)) in *.
  (* the item side *)
  assert (Hone : forall y, y ∈ receiptItems st ->
                   assignOne [a] y = if decide (y = x) then x' else y).
  { intros y Hy. unfold assignOne. simpl. unfold matchesItem.
    destruct (decide (y = x)) as [->|Hyx].
    - rewrite Hname, String.eqb_refl, Hnil. reflexivity.
    - destruct (String.eqb_spec (toLowerCase (itemName a)) (toLowerCase (name y)))
        as [E|E]; [by destruct (Hyx (Honly y Hy E))|done]. }
  assert (Hx' : x' ∈ new).
  { unfold new, applyAssignments. change (@map ?A ?B) with (@fmap list _ A B).
    apply list_elem_of_fmap. exists x. split; [|done].
    rewrite (Hone x Hx). by rewrite decide_True. }
  assert (Hndnew : NoDup (id <$> new)).
  { unfold new. by rewrite (ids_of_frames _ _ (frame_applyAssignments [a] (receiptItems st))). }
  assert (Hkept : forall y, y ∈ receiptItems st -> y <> x -> y ∈ new).
  { intros y Hy Hyx. unfold new, applyAssignments.
    change (@map ?A ?B) with (@fmap list _ A B).
    apply list_elem_of_fmap. exists y. split; [|done].
    rewrite (Hone y Hy). by rewrite decide_False. }
  (* the person side *)
  assert (Hfind : namedItem new a = Some x').
  { unfold namedItem. destruct (List.find _ new) as [u|] eqn:Hf.
    - apply find_some in Hf as [Hu Hm]. apply list_elem_of_In in Hu.
      apply String.eqb_eq in Hm.
      unfold new, applyAssignments in Hu. change (@map ?A ?B) with (@fmap list _ A B) in Hu.
      apply list_elem_of_fmap in Hu as (y & -> & Hy).
      rewrite (Hone y Hy) in *. destruct (decide (y = x)) as [->|Hyx]; [done|].
      by destruct (Hyx (Honly y Hy (eq_sym Hm))).
    - exfalso. pose proof (find_none _ _ Hf x' (proj1 (list_elem_of_In _ _) Hx')) as E.
      simpl in E. rewrite Hname, String.eqb_refl in E. done. }
  assert (Hassigned : assignPeople [a] new (people st)
                      = <[who := mkPerson who [x']]> (people st)).
  { unfold assignPeople. simpl. unfold assignPerson.
    unfold namedItem in Hfind. rewrite Hfind. subst who. by rewrite Hnew. }
  assert (Hheld : forall n p y, people st !! n = Some p -> y ∈ items p ->
                                syncItem new y = y).
  { intros n p y Hn Hy. unfold inSync in Hsync. rewrite holdings_spec in Hsync.
    destruct (Hsync n p y Hn Hy) as [Hyin Hnamed].
    apply syncItem_self; [done|]. apply Hkept; [done|].
    intros ->. rewrite Hnil in Hnamed. by apply elem_of_nil in Hnamed. }
  assert (Hst1 : people st1 = <[who := mkPerson who [x']]> (people st)).
  { rewrite Hpeople, Hassigned. unfold syncPeople. rewrite fmap_insert. simpl.
    rewrite (syncItem_self new x' Hndnew Hx'). f_equal.
    apply map_eq. intros n. rewrite lookup_fmap.
    destruct (people st !! n) as [p|] eqn:Hn; simpl; [|done].
    f_equal. transitivity (mkPerson (person_name p) (items p)); [|apply person_eta].
    f_equal. transitivity (map (fun y => y) (items p)); [|apply map_id].
    apply map_ext_in. intros y Hy. apply (Hheld n p y Hn). by apply list_elem_of_In. }
  split; [by rewrite Hitems|]. split; [exact Hst1|]. split.
  - unfold unassignItem; simpl. rewrite Hitems. unfold new, applyAssignments.
    rewrite map_map. transitivity (map (fun y => y) (receiptItems st)); [|apply map_id].
    apply map_ext_in. intros y Hy. apply list_elem_of_In in Hy.
    rewrite (Hone y Hy). destruct (decide (y = x)) as [->|Hyx]; simpl.
    + rewrite Nat.eqb_refl. simpl. rewrite String.eqb_refl. simpl.
      by apply item_eta.
    + destruct (Nat.eqb_spec (id y) (id x)) as [E|E]; [|done].
      by destruct (Hyx (same_id_same_item _ _ _ Hnd Hy Hx E)).
  - unfold unassignItem; simpl. rewrite Hst1, lookup_insert_eq. simpl.
    rewrite Nat.eqb_refl. simpl. by apply delete_insert_id.
Qed.

Lemma assign_then_unassign_restores_witness :
  let base := Example.chat "David had the burger" [mkAssignment "David" "Burger"]
                           Example.parsed in
  let ask := set_userMessage "Jane had the fries" base in
  let answer := Example.answering [mkAssignment "jane" "FRIES"] in
  inSync ask
  /\ people ask !! "Jane" = None
  /\ Example.fries ["Jane"] ∈ receiptItems (handleChatMessage answer ask)
  /\ people (handleChatMessage answer ask)
       = <["Jane" := mkPerson "Jane" [Example.fries ["Jane"]]]> (people ask)
  /\ receiptItems (unassignItem (Example.fries ["Jane"]) "Jane"
                                (handleChatMessage answer ask)) = receiptItems ask
  /\ people (unassignItem (Example.fries ["Jane"]) "Jane"
                          (handleChatMessage answer ask)) = people ask.
Proof.
  set (ask := set_userMessage "Jane had the fries"
                (Example.chat "David had the burger" [mkAssignment "David" "Burger"]
                              Example.parsed)).
  assert (Hsync : inSync ask) by (apply (bool_decide_unpack _); vm_compute; reflexivity).
  assert (Hnew : people ask !! "Jane" = None) by (vm_compute; reflexivity).
  split; [exact Hsync|]. split; [exact Hnew|].
  refine (assign_then_unassign_restores
            (Example.answering [mkAssignment "jane" "FRIES"]) ask
            (mkAssignment "jane" "FRIES") (Example.fries [])
            _ _ Hsync _ _ _ _ Hnew).
  - vm_compute. reflexivity.
  - apply (bool_decide_unpack _). vm_compute. reflexivity.
  - apply (bool_decide_unpack _). vm_compute. reflexivity.
  - reflexivity.
  - vm_compute. reflexivity.
  - intros y Hy Hm.
    assert (E : receiptItems ask = [Example.burger ["David"]; Example.fries []])
      by (vm_compute; reflexivity).
    rewrite E in Hy. apply elem_of_cons in Hy as [->|Hy].
    + vm_compute in Hm. discriminate.
    + by apply list_elem_of_singleton in Hy.
Defined.

(** ** A reset while an answer is pending *)

Lemma assignPeople_no_items assignments m : assignPeople assignments [] m = m.
Proof.
  unfold assignPeople. induction assignments as [|a l IH]; simpl; [done|exact IH].
Qed.

(** X20.  [resetApp] does not withdraw a pending interpretation call.  When
    the answer arrives after a reset it assigns nothing, since there is no
    item left to name: items and people stay empty and the application stays
    in the welcome state; the busy flag is cleared, and the reply is the
    only entry of the emptied transcript. *)
Theorem answer_after_reset_assigns_nothing :
  forall (response : Thrown + list Assignment) (st : State),
    let st' := chatSettle response (resetApp st) in
    isProcessingChat (resetApp st) = isProcessingChat st
    /\ receiptItems st' = []
    /\ people st' = ∅
    /\ billSummary st' = ∅
    /\ appState st' = welcome
    /\ isProcessingChat st' = false
    /\ chatHistory st' = [mkMsg model (replyText response)].
Proof.
  intros response st st'. subst st'.
  split; [reflexivity|].
  assert (Hi : receiptItems (chatSettle response (resetApp st)) = []).
  { rewrite receiptItems_chatSettle. by destruct response as [e|[|a l]]. }
  split; [exact Hi|]. split; [|split; [|split; [|split]]].
  - rewrite people_chatSettle. destruct response as [e|[|a l]]; try done.
    simpl. rewrite assignPeople_no_items. unfold syncPeople. apply fmap_empty.
  - apply billSummary_zero. unfold subtotal. by rewrite Hi.
  - by destruct response as [e|[|a l]].
  - by destruct response as [e|[|a l]].
  - by rewrite chatHistory_chatSettle.
Qed.

(** ** Unassigning what is not assigned *)

Lemma filter_everything {A} (f : A -> bool) (l : list A) :
  (forall x, x ∈ l -> f x = true) -> List.filter f l = l.
Proof.
  induction l as [|x l IH]; intros H; simpl; [done|].
  rewrite (H x) by (by left). f_equal. apply IH. intros y Hy. apply H. by right.
Qed.

(** X21.  In a session, unassigning a pair that is not there changes
    nothing: when no item with the identifier lists the person and the
    person, if known at all, holds no item with the identifier, the state
    after [unassignItem] is the state before. *)
Theorem unassignItem_of_absent_pair_is_identity :
  forall (itemToUnassign : ReceiptItem) (personName : string) (st : State),
    inSession st ->
    (forall item, item ∈ receiptItems st -> id item = id itemToUnassign ->
                  personName ∉ assignedTo item) ->
    (forall person, people st !! personName = Some person ->
                    id itemToUnassign ∉ heldIds person) ->
    unassignItem itemToUnassign personName st = st.
Proof.
  intros it p st Hs Hitems Hperson. apply State_eq; try reflexivity.
  - unfold unassignItem; simpl.
    transitivity (map (fun y => y) (receiptItems st)); [|apply map_id].
    apply map_ext_in. intros item Hin. apply list_elem_of_In in Hin.
    destruct (Nat.eqb_spec (id item) (id it)) as [E|E]; [|done].
    rewrite filter_everything; [by destruct item|].
    intros q Hq. apply not_eqb_string. intros ->. by apply (Hitems item).
  - unfold unassignItem; simpl.
    destruct (people st !! p) as [person|] eqn:Hp; [|done].
    destruct (wellKept_inSession st Hs p person Hp) as (_ & _ & Hne & _).
    rewrite filter_everything.
    + destruct (items person) as [|y l] eqn:E; [done|]. simpl.
      rewrite <- E, person_eta. by apply insert_id.
    + intros y Hy. apply not_eqb_id. intros E.
      apply (Hperson person eq_refl). unfold heldIds. rewrite <- E.
      by apply list_elem_of_fmap_2.
Qed.

Lemma unassignItem_of_absent_pair_is_identity_witness :
  inSession Example.assigned
  /\ unassignItem (Example.burger ["David"]) "Jane" Example.assigned = Example.assigned.
Proof.
  assert (Hs : inSession Example.assigned) by apply example_states_inSession.
  split; [exact Hs|].
  apply (unassignItem_of_absent_pair_is_identity _ _ _ Hs).
  - intros item Hin Hid.
    assert (E : receiptItems Example.assigned
                = [Example.burger ["David"]; Example.fries ["Jane"; "John"]])
      by (vm_compute; reflexivity).
    rewrite E in Hin. apply elem_of_cons in Hin as [->|Hin].
    + apply (bool_decide_unpack _). vm_compute. reflexivity.
    + apply list_elem_of_singleton in Hin as ->. vm_compute in Hid. discriminate.
  - intros person Hp.
    assert (E : people Example.assigned !! "Jane"
                = Some (mkPerson "Jane" [Example.fries ["Jane"; "John"]]))
      by (vm_compute; reflexivity).
    rewrite E in Hp. injection Hp as <-.
    apply (bool_decide_unpack _). vm_compute. reflexivity.
Defined.
